(** * PerlinNoise: seeded 2D gradient noise and its fractal sum

    A shallow embedding of the class [PerlinNoise] of [main.js] (the two
    other copies of the class in the repository are textually identical),
    with the properties of its three public methods [seed], [noise2D] and
    [perlin2D], and of the parts of the class [PerlinVisualizer] that
    compute without the page and the canvases: the grid that [generate]
    fills, the cells that [drawIsometricGameView] samples, and the colour
    texts of [adjustBrightness] and [adjustRgbBrightness].

    Modelling conventions.
    - A JavaScript number that holds a real quantity (seed argument,
      coordinates, fade weights, noise values, amplitudes) is an exact
      rational [Q]; every finite double is such a rational.  Rounding and
      overflow of double arithmetic are not modelled: equalities of
      rationals are stated with [==].  Where a result depends on the
      product [seed * 16807] being exact, or on the octave loop staying
      within the finite doubles, its statement carries the range as a
      hypothesis ([exact_seed_limit], [finite_octaves]).
    - A JavaScript number that holds an integer (the seed after
      [Math.floor], table entries, table indices, [octaves]) is a [Z];
      the 32-bit operators [<<], [|] and [&] wrap through [ToInt32].
    - The outcome of the one division that can have a zero divisor is a
      [number], which adds NaN and the two infinities.
    - A JavaScript array is a finite map from integer property keys to
      stored values; a stored [None] is the value [undefined], and a key
      that was never written also reads as [undefined].  Keys outside
      the index range are ordinary properties, as in the source.
    - The methods run in a small state-and-exception monad over the two
      tables of the object; [Throw] is the [TypeError] raised by indexing
      [undefined]. *)

From Stdlib Require Import ZArith QArith Qround Qabs Qminmax Lia Lqa.
From Stdlib Require Import List Ascii.
From stdpp Require Import base option gmap pretty.

Local Open Scope Z_scope.

(** ** JavaScript values *)

(** 32-bit integer conversion of an integral number. *)
Definition ToInt32 (z : Z) : Z :=
  let r := z mod 2 ^ 32 in
  if r <? 2 ^ 31 then r else r - 2 ^ 32.

(** [a << b] *)
Definition js_shl (a b : Z) : Z :=
  ToInt32 (Z.shiftl (ToInt32 a) (b mod 32)).

(** [a | b] *)
Definition js_or (a b : Z) : Z :=
  Z.lor (ToInt32 a) (ToInt32 b).

(** [a & b] *)
Definition js_and (a b : Z) : Z :=
  Z.land (ToInt32 a) (ToInt32 b).

(** [a % b] on integral numbers: the sign follows the dividend. *)
Definition js_rem (a b : Z) : Z := Z.rem a b.

(** The result of a division: a finite rational, an infinity or NaN. *)
Inductive number : Type :=
  | Fin (q : Q)
  | PInf
  | NInf
  | NaN.

(** [a / b] on finite numbers. *)
Definition js_div (a b : Q) : number :=
  if Qeq_bool b 0 then
    (if Qeq_bool a 0 then NaN
     else if Qle_bool 0 a then PInf else NInf)
  else Fin (a / b).

(** Arrays: property key to stored value, [None] being [undefined]. *)
Definition get {A : Type} (a : gmap Z (option A)) (k : Z) : option A :=
  default None (a !! k).

Definition put {A : Type} (a : gmap Z (option A)) (k : Z) (v : option A)
  : gmap Z (option A) :=
  <[k := v]> a.

(** Reading at an index that may be NaN: the key ["NaN"] is never
    written on the tables, so the read is [undefined]. *)
Definition get_at {A : Type} (a : gmap Z (option A)) (k : option Z)
  : option A :=
  match k with
  | Some i => get a i
  | None => None
  end.

(** [h + n] where [h] may be [undefined]: [undefined + n] is NaN. *)
Definition plus_num (h : option Z) (n : Z) : option Z :=
  match h with
  | Some a => Some (a + n)
  | None => None
  end.

(** [h & 255] where [h] may be [undefined]: ToInt32 takes [undefined]
    and NaN to 0. *)
Definition mask255 (h : option Z) : Z :=
  match h with
  | Some a => js_and a 255
  | None => js_and 0 255
  end.

(** [a < b] on rationals, as a test. *)
Definition Qlt_bool (a b : Q) : bool := negb (Qle_bool b a).

(** ** The object and the method monad *)

(** [this.perm] and [this.gradP]; [this.grad3] is the constant below. *)
Record Field : Type := mkField {
  perm : gmap Z (option Z);
  gradP : gmap Z (option (Z * Z))
}.

Inductive outcome (A : Type) : Type :=
  | Ret (a : A)
  | Throw.

Arguments Ret {A} a.
Arguments Throw {A}.

Definition M (A : Type) : Type := Field -> outcome A * Field.

Definition ret {A : Type} (a : A) : M A := fun st => (Ret a, st).

Definition throw {A : Type} : M A := fun st => (Throw, st).

Definition bind {A B : Type} (m : M A) (f : A -> M B) : M B :=
  fun st =>
    match m st with
    | (Ret a, st') => f a st'
    | (Throw, st') => (Throw, st')
    end.

Declare Scope js_scope.
Delimit Scope js_scope with js.
Notation "'do' x <- m ; k" := (bind m (fun x => k))
  (at level 10, x name, m at level 100, k at level 200) : js_scope.
Notation "m ;; k" := (bind m (fun _ => k))
  (at level 100, k at level 200, right associativity) : js_scope.

Definition read_perm (k : option Z) : M (option Z) :=
  fun st => (Ret (get_at (perm st) k), st).

Definition read_gradP (k : Z) : M (option (Z * Z)) :=
  fun st => (Ret (get (gradP st) k), st).

Definition write_perm (k : Z) (v : option Z) : M unit :=
  fun st => (Ret tt, mkField (put (perm st) k v) (gradP st)).

Definition write_gradP (k : Z) (v : option (Z * Z)) : M unit :=
  fun st => (Ret tt, mkField (perm st) (put (gradP st) k v)).

(** The value and the final state of a run. *)
Definition result {A : Type} (m : M A) (st : Field) : outcome A := fst (m st).
Definition exec {A : Type} (m : M A) (st : Field) : Field := snd (m st).

(** ** class PerlinNoise *)

Definition grad3 : list (Z * Z) :=
  [(1, 1); (-1, 1); (1, -1); (-1, -1); (1, 0); (-1, 0); (0, 1); (0, -1)].

(** [this.grad3[v % 8]]: [undefined % 8] is NaN and a negative or NaN
    key reads [undefined]. *)
Definition grad3_at (v : option Z) : option (Z * Z) :=
  match v with
  | Some n =>
      let k := js_rem n 8 in
      if 0 <=? k then grad3 !! Z.to_nat k else None
  | None => None
  end.

(** [if (seed > 0 && seed < 1) seed *= 65536] *)
Definition scale_seed (seed : Q) : Q :=
  if Qlt_bool 0 seed && Qlt_bool seed 1 then (seed * 65536)%Q else seed.

(** [if (seed < 256) seed |= seed << 8] *)
Definition fold_seed (seed : Z) : Z :=
  if seed <? 256 then js_or seed (js_shl seed 8) else seed.

(** [for (let i = 0; i < 256; i++) p[i] = i], with [n] rounds left. *)
Fixpoint fill_identity (n : nat) (i : Z) (p : gmap Z (option Z))
  : gmap Z (option Z) :=
  match n with
  | O => p
  | S n' => fill_identity n' (i + 1) (put p i (Some i))
  end.

(** One round of the shuffle at index [i].  The product is that of the
    source as long as it is an integer of at most 2^53 in absolute
    value, which a double holds exactly; past the first round the state
    is below 2^31. *)
Definition shuffle_step (i : Z) (sp : Z * gmap Z (option Z))
  : Z * gmap Z (option Z) :=
  let '(seed, p) := sp in
  let seed := js_rem (seed * 16807) 2147483647 in
  let r := Qfloor ((inject_Z seed / 2147483647) * inject_Z (i + 1))%Q in
  let temp := get p i in
  let p := put p i (get p r) in
  let p := put p r temp in
  (seed, p).

(** [for (let i = 255; i > 0; i--) { ... }], entered with the counter
    at [i]. *)
Fixpoint shuffle (i : nat) (sp : Z * gmap Z (option Z))
  : Z * gmap Z (option Z) :=
  match i with
  | O => sp
  | S j => shuffle j (shuffle_step (Z.of_nat i) sp)
  end.

Local Open Scope js_scope.

(** The last loop of [seed], with [n] rounds left. *)
Fixpoint duplicate (n : nat) (i : Z) (p : gmap Z (option Z)) : M unit :=
  match n with
  | O => ret tt
  | S n' =>
      write_perm (i + 256) (get p i) ;;
      write_perm i (get p i) ;;
      write_gradP (i + 256) (grad3_at (get p i)) ;;
      write_gradP i (grad3_at (get p i)) ;;
      duplicate n' (i + 1) p
  end.

Definition seed (seed : Q) : M unit :=
  let seed := scale_seed seed in
  let seed := Qfloor seed in
  let seed := fold_seed seed in
  let p := fill_identity 256 0 ∅ in
  let p := snd (shuffle 255 (seed, p)) in
  duplicate 256 0 p.

(** [new PerlinNoise()], [rnd] being the draw of [Math.random()]. *)
Definition constructor (rnd : Q) : Field :=
  exec (seed rnd) (mkField ∅ ∅).

Definition lerp (a b t : Q) : Q := ((1 - t) * a + t * b)%Q.

Definition fade (t : Q) : Q := (t * t * t * (t * (t * 6 - 15) + 10))%Q.

Definition grad (hash : option Z) (x y : Q) : M Q :=
  do g <- read_gradP (mask255 hash);
  match g with
  | Some (g0, g1) => ret (inject_Z g0 * x + inject_Z g1 * y)%Q
  | None => throw
  end.

Definition noise2D (x y : Q) : M Q :=
  let X := js_and (Qfloor x) 255 in
  let Y := js_and (Qfloor y) 255 in
  let x := (x - inject_Z (Qfloor x))%Q in
  let y := (y - inject_Z (Qfloor y))%Q in
  let u := fade x in
  let v := fade y in
  do pX <- read_perm (Some X);
  let aa := plus_num pX Y in
  do pX <- read_perm (Some X);
  let ab := plus_num (plus_num pX Y) 1 in
  do pX1 <- read_perm (Some (X + 1));
  let ba := plus_num pX1 Y in
  do pX1 <- read_perm (Some (X + 1));
  let bb := plus_num (plus_num pX1 Y) 1 in
  do haa <- read_perm aa;
  do g00 <- grad haa x y;
  do hab <- read_perm ab;
  do g01 <- grad hab x (y - 1)%Q;
  do hba <- read_perm ba;
  do g10 <- grad hba (x - 1)%Q y;
  do hbb <- read_perm bb;
  do g11 <- grad hbb (x - 1)%Q (y - 1)%Q;
  let nx0 := lerp g00 g01 v in
  let nx1 := lerp g10 g11 v in
  let nxy := lerp nx0 nx1 u in
  ret nxy.

(** The loop of [perlin2D], with [n] rounds left; the loop variables
    are [total], [frequency], [amplitude] and [maxValue].  They are
    those of the source as long as none of them overflows the finite
    doubles. *)
Fixpoint octave_loop (n : nat) (x y persistence lacunarity : Q)
    (vars : Q * Q * Q * Q) : M (Q * Q * Q * Q) :=
  match n with
  | O => ret vars
  | S n' =>
      let '(total, frequency, amplitude, maxValue) := vars in
      do s <- noise2D (x * frequency)%Q (y * frequency)%Q;
      let total := (total + s * amplitude)%Q in
      let maxValue := (maxValue + amplitude)%Q in
      let amplitude := (amplitude * persistence)%Q in
      let frequency := (frequency * lacunarity)%Q in
      octave_loop n' x y persistence lacunarity
        (total, frequency, amplitude, maxValue)
  end.

(** [for (let i = 0; i < octaves; i++)] runs [octaves] rounds, none
    when [octaves <= 0]. *)
Definition perlin2D (x y : Q) (octaves : Z) (persistence lacunarity : Q)
  : M number :=
  do vars <- octave_loop (Z.to_nat octaves) x y persistence lacunarity
               (0%Q, 1%Q, 1%Q, 0%Q);
  let '(total, _, _, maxValue) := vars in
  ret (js_div total maxValue).

(** ** Derived views used in the statements *)

(** The gradients of the four corners, as [noise2D] reads them. *)
Definition corner (st : Field) (X Y : Z) (dx dy : Z) : option (Z * Z) :=
  get (gradP st)
    (mask255 (get_at (perm st)
       (plus_num (plus_num (get (perm st) (X + dx)) Y) dy))).

Definition dot (g : Z * Z) (x y : Q) : Q :=
  (inject_Z (fst g) * x + inject_Z (snd g) * y)%Q.

(** What [noise2D] returns, in terms of the four corner gradients. *)
Definition noise2D_value (st : Field) (x y : Q) : outcome Q :=
  let X := js_and (Qfloor x) 255 in
  let Y := js_and (Qfloor y) 255 in
  let xf := (x - inject_Z (Qfloor x))%Q in
  let yf := (y - inject_Z (Qfloor y))%Q in
  match corner st X Y 0 0, corner st X Y 0 1,
        corner st X Y 1 0, corner st X Y 1 1 with
  | Some a, Some b, Some c, Some d =>
      Ret (lerp (lerp (dot a xf yf) (dot b xf (yf - 1)%Q) (fade yf))
                (lerp (dot c (xf - 1)%Q yf) (dot d (xf - 1)%Q (yf - 1)%Q)
                      (fade yf))
                (fade xf))
  | _, _, _, _ => Throw
  end.

(** Equality of samples up to the representation of a rational. *)
Definition outcome_eq (a b : outcome Q) : Prop :=
  match a, b with
  | Ret r, Ret s => r == s
  | Throw, Throw => True
  | _, _ => False
  end.

(** A fractal sample that equals a plain sample. *)
Definition same_sample (a : outcome number) (b : outcome Q) : Prop :=
  match a, b with
  | Ret (Fin r), Ret s => r == s
  | Throw, Throw => True
  | _, _ => False
  end.

(** The shuffled sequence that [seed v] writes into the tables. *)
Definition shuffled (v : Q) : gmap Z (option Z) :=
  snd (shuffle 255 (fold_seed (Qfloor (scale_seed v)),
                    fill_identity 256 0 ∅)).

(** ** The ranges in which the arithmetic is that of the source *)

(** The largest seed whose first product [seed * 16807] is an integer
    of at most 2^53: 535919512985.  A seed below 256, negative ones
    included, is folded to a 32-bit integer first, and every later
    state is below 2^31, so no other product comes near 2^53. *)
Definition exact_seed_limit : Z := 2 ^ 53 / 16807.

(** Whether every frequency, every scaled coordinate and every
    amplitude that the [n] remaining rounds of the octave loop use is
    at most 2^1000 in absolute value, well inside the finite doubles. *)
Fixpoint finite_rounds (n : nat) (x y frequency amplitude : Q)
    (persistence lacunarity : Q) : bool :=
  match n with
  | O => true
  | S n' =>
      Qle_bool (Qabs frequency) (2 ^ 1000)
      && Qle_bool (Qabs (x * frequency)) (2 ^ 1000)
      && Qle_bool (Qabs (y * frequency)) (2 ^ 1000)
      && Qle_bool (Qabs amplitude) (2 ^ 1000)
      && finite_rounds n' x y (frequency * lacunarity)%Q
           (amplitude * persistence)%Q persistence lacunarity
  end.

(** The calls of [perlin2D] whose loop stays within the finite doubles:
    at most 2^20 octaves, so that the sums stay finite too. *)
Definition finite_octaves (x y : Q) (octaves : Z)
    (persistence lacunarity : Q) : bool :=
  (octaves <=? 2 ^ 20)
  && finite_rounds (Z.to_nat octaves) x y 1 1 persistence lacunarity.

(** ** The table invariant of the data model *)

(** Exchange of the values at two property keys. *)
Definition swap (p : gmap Z (option Z)) (i r : Z) : gmap Z (option Z) :=
  put (put p i (get p r)) r (get p i).

(** The key whose old value a swap of [i] and [r] moves to key [k]. *)
Definition transpose (i r k : Z) : Z :=
  if decide (k = r) then i else if decide (k = i) then r else k.

(** Positions 0..255 hold values of 0..255, each value at one position. *)
Definition bijective256 (p : gmap Z (option Z)) : Prop :=
  (forall k, 0 <= k < 256 -> exists n, 0 <= n < 256 /\ get p k = Some n)
  /\ (forall n, 0 <= n < 256 -> exists k, 0 <= k < 256 /\ get p k = Some n)
  /\ (forall k j, 0 <= k < 256 -> 0 <= j < 256 ->
        get p k = get p j -> k = j).

(** Slot [i] of the two tables: an integer of [0, 255], repeated at
    [i + 256], with the palette vector of index [perm[i] mod 8] in both
    halves of the gradient table. *)
Definition slot_ok (st : Field) (i : Z) : Prop :=
  match get (perm st) i with
  | Some n =>
      0 <= n < 256
      /\ get (perm st) (i + 256) = Some n
      /\ get (gradP st) i = grad3 !! Z.to_nat (n mod 8)
      /\ get (gradP st) (i + 256) = grad3 !! Z.to_nat (n mod 8)
  | None => False
  end.

(** The invariant: every slot is as above and the first 256 entries are
    a permutation of 0..255. *)
Definition tables_ok (st : Field) : Prop :=
  Forall (slot_ok st) (seqZ 0 256)
  /\ (fun i => get (perm st) i) <$> seqZ 0 256 ≡ₚ Some <$> seqZ 0 256.

(** The invariant can be checked by running it on a given pair of
    tables. *)
#[global] Instance slot_ok_dec (st : Field) (i : Z) : Decision (slot_ok st i).
Proof. unfold slot_ok. destruct (get (perm st) i); apply _. Defined.

#[global] Instance tables_ok_dec (st : Field) : Decision (tables_ok st).
Proof. unfold tables_ok. apply _. Defined.

(** ** The single-octave definition in the words of the specification *)

(** The quintic fade curve [6t^5 - 15t^4 + 10t^3]. *)
Definition fade_spec (t : Q) : Q := (6 * t ^ 5 - 15 * t ^ 4 + 10 * t ^ 3)%Q.

(** Linear interpolation from [a] to [b] with weight [w]. *)
Definition lerp_spec (a b w : Q) : Q := (a + w * (b - a))%Q.

(** The grid cell of a coordinate: its floor, masked to 0..255. *)
Definition cell_spec (x : Q) : Z := Qfloor x mod 256.

(** The tables read as total sequences of integers and of vectors. *)
Definition perm_spec (st : Field) (i : Z) : Z := default 0 (get (perm st) i).

Definition gradient_spec (st : Field) (i : Z) : Z * Z :=
  default (0, 0) (get (gradP st) i).

(** The hash of corner [(i, j)] of cell [(X, Y)]: two composed lookups. *)
Definition hash_spec (st : Field) (X Y i j : Z) : Z :=
  perm_spec st (perm_spec st (X + i) + Y + j).

(** The gradient of a corner dotted with the offset from that corner:
    1 is subtracted from a fractional coordinate at the far corners. *)
Definition contribution_spec (st : Field) (X Y : Z) (xf yf : Q) (i j : Z)
  : Q :=
  let g := gradient_spec st (hash_spec st X Y i j) in
  (inject_Z (fst g) * (xf - inject_Z i)
   + inject_Z (snd g) * (yf - inject_Z j))%Q.

(** Reference noise: first along x, then along y, with the fade weights. *)
Definition noise2D_spec (st : Field) (x y : Q) : Q :=
  let X := cell_spec x in
  let Y := cell_spec y in
  let xf := (x - inject_Z (Qfloor x))%Q in
  let yf := (y - inject_Z (Qfloor y))%Q in
  let u := fade_spec xf in
  let v := fade_spec yf in
  let c := contribution_spec st X Y xf yf in
  lerp_spec (lerp_spec (c 0 0) (c 1 0) u) (lerp_spec (c 0 1) (c 1 1) u) v.


(** ** The seeding procedure in the words of the specification *)








(** ** Derived views used for continuity *)

(** The value [noise2D] computes in a cell, as a function of the four
    corner gradients and the fractional offsets. *)
Definition cell_blend (ga gb gc gd : Z * Z) (xf yf : Q) : Q :=
  lerp (lerp (dot ga xf yf) (dot gb xf (yf - 1)%Q) (fade yf))
       (lerp (dot gc (xf - 1)%Q yf) (dot gd (xf - 1)%Q (yf - 1)%Q) (fade yf))
       (fade xf).

(** The gap between the slope of a chord of the fade curve and 15/8,
    divided by 30: a sum of squares weighted by products that are not
    negative on [0, 1]. *)
Definition fade_slack (a b : Q) : Q :=
  let al := (a - (1 # 2))%Q in
  let be := (b - a)%Q in
  ((1 # 4) * ((al + be / 2) * (al + be / 2) + be * be / 12)
   + a * (1 - a)
     * ((1 # 3) * ((al + be / 4) * (al + be / 4)) + be * be / 80)
   + (a * (1 - b) + b * (1 - a))
     * ((1 # 6) * ((al + be / 2) * (al + be / 2)) + be * be / 120)
   + b * (1 - b)
     * ((1 # 3) * ((al + 3 * be / 4) * (al + 3 * be / 4)) + be * be / 80))%Q.

(** A vector with its components exchanged. *)
Definition flip (g : Z * Z) : Z * Z := (snd g, fst g).

(** ** Sampling at coordinates that may be NaN or an infinity

    [noise2D] and [perlin2D] once more, statement by statement, on
    coordinates of type [number]: the division by a zero [zoomFactor]
    in [generate] hands them NaN and infinities.  The frequency, the
    amplitude and their sum stay finite rationals. *)

(** [a * b] *)
Definition num_mul (a b : number) : number :=
  match a, b with
  | Fin x, Fin y => Fin (x * y)
  | NaN, _ => NaN
  | _, NaN => NaN
  | Fin x, PInf | PInf, Fin x =>
      if Qeq_bool x 0 then NaN else if Qle_bool 0 x then PInf else NInf
  | Fin x, NInf | NInf, Fin x =>
      if Qeq_bool x 0 then NaN else if Qle_bool 0 x then NInf else PInf
  | PInf, PInf | NInf, NInf => PInf
  | PInf, NInf | NInf, PInf => NInf
  end.

(** [a + b] *)
Definition num_add (a b : number) : number :=
  match a, b with
  | Fin x, Fin y => Fin (x + y)
  | NaN, _ => NaN
  | _, NaN => NaN
  | PInf, NInf | NInf, PInf => NaN
  | PInf, _ | _, PInf => PInf
  | NInf, _ | _, NInf => NInf
  end.

(** [a - b] *)
Definition num_sub (a b : number) : number :=
  match a, b with
  | Fin x, Fin y => Fin (x - y)
  | NaN, _ => NaN
  | _, NaN => NaN
  | PInf, PInf | NInf, NInf => NaN
  | PInf, _ | _, NInf => PInf
  | NInf, _ | _, PInf => NInf
  end.

(** [Math.floor(a)] *)
Definition num_floor (a : number) : number :=
  match a with
  | Fin x => Fin (inject_Z (Qfloor x))
  | _ => a
  end.

(** [a & b] for an integral or non-finite [a]: ToInt32 takes NaN and
    the infinities to 0. *)
Definition num_and (a : number) (b : Z) : Z :=
  match a with
  | Fin x => js_and (Qfloor x) b
  | _ => js_and 0 b
  end.

(** [a / b] for a finite [b] *)
Definition num_div (a : number) (b : Q) : number :=
  match a with
  | Fin x => js_div x b
  | PInf => if Qle_bool 0 b then PInf else NInf
  | NInf => if Qle_bool 0 b then NInf else PInf
  | NaN => NaN
  end.

Definition lerp_num (a b t : number) : number :=
  num_add (num_mul (num_sub (Fin 1) t) a) (num_mul t b).

Definition fade_num (t : number) : number :=
  num_mul (num_mul (num_mul t t) t)
    (num_add (num_mul t (num_sub (num_mul t (Fin 6)) (Fin 15))) (Fin 10)).

Definition grad_num (hash : option Z) (x y : number) : M number :=
  do g <- read_gradP (mask255 hash);
  match g with
  | Some (g0, g1) =>
      ret (num_add (num_mul (Fin (inject_Z g0)) x)
                   (num_mul (Fin (inject_Z g1)) y))
  | None => throw
  end.

Definition noise2D_num (x y : number) : M number :=
  let X := num_and (num_floor x) 255 in
  let Y := num_and (num_floor y) 255 in
  let x := num_sub x (num_floor x) in
  let y := num_sub y (num_floor y) in
  let u := fade_num x in
  let v := fade_num y in
  do pX <- read_perm (Some X);
  let aa := plus_num pX Y in
  do pX <- read_perm (Some X);
  let ab := plus_num (plus_num pX Y) 1 in
  do pX1 <- read_perm (Some (X + 1));
  let ba := plus_num pX1 Y in
  do pX1 <- read_perm (Some (X + 1));
  let bb := plus_num (plus_num pX1 Y) 1 in
  do haa <- read_perm aa;
  do g00 <- grad_num haa x y;
  do hab <- read_perm ab;
  do g01 <- grad_num hab x (num_sub y (Fin 1));
  do hba <- read_perm ba;
  do g10 <- grad_num hba (num_sub x (Fin 1)) y;
  do hbb <- read_perm bb;
  do g11 <- grad_num hbb (num_sub x (Fin 1)) (num_sub y (Fin 1));
  let nx0 := lerp_num g00 g01 v in
  let nx1 := lerp_num g10 g11 v in
  let nxy := lerp_num nx0 nx1 u in
  ret nxy.

Fixpoint octave_loop_num (n : nat) (x y : number)
    (persistence lacunarity : Q) (vars : number * Q * Q * Q)
  : M (number * Q * Q * Q) :=
  match n with
  | O => ret vars
  | S n' =>
      let '(total, frequency, amplitude, maxValue) := vars in
      do s <- noise2D_num (num_mul x (Fin frequency))
                          (num_mul y (Fin frequency));
      let total := num_add total (num_mul s (Fin amplitude)) in
      let maxValue := (maxValue + amplitude)%Q in
      let amplitude := (amplitude * persistence)%Q in
      let frequency := (frequency * lacunarity)%Q in
      octave_loop_num n' x y persistence lacunarity
        (total, frequency, amplitude, maxValue)
  end.

Definition perlin2D_num (x y : number) (octaves : Z)
    (persistence lacunarity : Q) : M number :=
  do vars <- octave_loop_num (Z.to_nat octaves) x y persistence lacunarity
               (Fin 0, 1%Q, 1%Q, 0%Q);
  let '(total, _, _, maxValue) := vars in
  ret (num_div total maxValue).

(** The value of a corner, and what [noise2D_num] returns in terms of
    the four corner gradients. *)
Definition dot_num (g : Z * Z) (x y : number) : number :=
  num_add (num_mul (Fin (inject_Z (fst g))) x)
          (num_mul (Fin (inject_Z (snd g))) y).

Definition noise2D_num_value (st : Field) (x y : number) : outcome number :=
  let X := num_and (num_floor x) 255 in
  let Y := num_and (num_floor y) 255 in
  let xf := num_sub x (num_floor x) in
  let yf := num_sub y (num_floor y) in
  match corner st X Y 0 0, corner st X Y 0 1,
        corner st X Y 1 0, corner st X Y 1 1 with
  | Some a, Some b, Some c, Some d =>
      Ret (lerp_num
             (lerp_num (dot_num a xf yf) (dot_num b xf (num_sub yf (Fin 1)))
                       (fade_num yf))
             (lerp_num (dot_num c (num_sub xf (Fin 1)) yf)
                       (dot_num d (num_sub xf (Fin 1)) (num_sub yf (Fin 1)))
                       (fade_num yf))
             (fade_num xf))
  | _, _, _, _ => Throw
  end.


(** ** The grid of the visualizer

    [PerlinVisualizer.generate] fills [noiseGrid] with one fractal sample
    per cell.  The model keeps the fields [generate] reads or writes;
    the statements on the page and the canvases ([classList], [draw],
    [setTimeout]) are left out.  The sliders deliver integers
    ([parseInt]), so [gridSize], [scale] and [octaves] are in [Z]; a row
    of the grid is a map from the column to the stored number, an absent
    key reading [undefined]. *)

Module PerlinVisualizer.

(** The fields of a [PerlinVisualizer] that [generate] reads or writes;
    the canvases and the page are not part of the model. *)
Record t : Type := mk {
  perlin : Field;
  noiseGrid : gmap Z (gmap Z number);
  gridSize : Z;
  scale : Z;
  octaves : Z;
  persistence : Q;
  lacunarity : Q;
  currentSeed : Q
}.

Definition with_perlin (f : Field) (v : t) : t :=
  mk f (noiseGrid v) (gridSize v) (scale v) (octaves v) (persistence v)
     (lacunarity v) (currentSeed v).

Definition with_noiseGrid (g : gmap Z (gmap Z number)) (v : t) : t :=
  mk (perlin v) g (gridSize v) (scale v) (octaves v) (persistence v)
     (lacunarity v) (currentSeed v).

(** The value of cell [(x, y)]: [perlin2D(x / zoomFactor, y / zoomFactor,
    octaves, persistence, lacunarity)]; a zero [zoomFactor] makes the
    coordinates NaN or infinite. *)
Definition cell_sample (v : t) (x y : Z) : M number :=
  let zoomFactor := 110 - scale v in
  let nx := js_div (inject_Z x) (inject_Z zoomFactor) in
  let ny := js_div (inject_Z y) (inject_Z zoomFactor) in
  perlin2D_num nx ny (octaves v) (persistence v) (lacunarity v).

(** [this.noiseGrid[y][x] = value] *)
Definition set_cell (y x : Z) (value : number) (v : t) : t :=
  with_noiseGrid
    (<[y := <[x := value]> (default ∅ (noiseGrid v !! y))]> (noiseGrid v)) v.

(** The inner loop over [x], with [n] rounds left. *)
Fixpoint fill_row (n : nat) (x y : Z) (v : t) : outcome unit * t :=
  match n with
  | O => (Ret tt, v)
  | S n' =>
      match cell_sample v x y (perlin v) with
      | (Ret value, f) =>
          fill_row n' (x + 1) y (set_cell y x value (with_perlin f v))
      | (Throw, f) => (Throw, with_perlin f v)
      end
  end.

(** The outer loop over [y], with [n] rounds left. *)
Fixpoint fill_rows (n : nat) (y : Z) (v : t) : outcome unit * t :=
  match n with
  | O => (Ret tt, v)
  | S n' =>
      let v := with_noiseGrid (<[y := ∅]> (noiseGrid v)) v in
      match fill_row (Z.to_nat (gridSize v)) 0 y v with
      | (Ret _, v') => fill_rows n' (y + 1) v'
      | (Throw, v') => (Throw, v')
      end
  end.

(** [generate(newSeed)], without its statements on the page and the
    canvases; [new Array(n)] throws a RangeError unless [n] is an
    integer of [0, 2^32 - 1]. *)
Definition generate (newSeed : bool) (v : t) : outcome unit * t :=
  let v :=
    if newSeed
    then with_perlin (exec (seed (currentSeed v)) (perlin v)) v
    else v in
  if (gridSize v <? 0) || (4294967295 <? gridSize v) then (Throw, v)
  else fill_rows (Z.to_nat (gridSize v)) 0 (with_noiseGrid ∅ v).


(** [drawIsometricGameView]: the grid the isometric view draws has
    [isoGridSize] tiles a side; tile [x] samples column (or row)
    [Math.floor(x * scaleFactor)].  [None] is NaN, which is what the
    product is when [scaleFactor] is 0 / 0. *)
Definition isoGridSize (v : t) : Z := Z.min 20 (gridSize v).

Definition scaleFactor (v : t) : number :=
  js_div (inject_Z (gridSize v)) (inject_Z (isoGridSize v)).

Definition sample (v : t) (x : Z) : option Z :=
  match scaleFactor v with
  | Fin s => Some (Qfloor (inject_Z x * s))
  | _ => None
  end.

(** The guard [sampleX >= this.gridSize || sampleY >= this.gridSize],
    which is false on NaN. *)
Definition skipped (v : t) (x y : Z) : bool :=
  match sample v x, sample v y with
  | Some sampleX, Some sampleY =>
      (gridSize v <=? sampleX) || (gridSize v <=? sampleY)
  | _, _ => false
  end.


(** [adjustBrightness] and [adjustRgbBrightness]: colour texts are
    strings of code units below 256; a channel is a [number], the
    amount [percent] a finite one. *)

(** The class [\d]. *)
Definition is_digit (c : ascii) : bool :=
  (48 <=? nat_of_ascii c)%nat && (nat_of_ascii c <=? 57)%nat.

(** The class [\s], which is also the white space [parseInt] skips:
    tab, line feed, vertical tab, form feed, carriage return, space and
    no-break space. *)
Definition is_space (c : ascii) : bool :=
  ((9 <=? nat_of_ascii c)%nat && (nat_of_ascii c <=? 13)%nat)
  || (nat_of_ascii c =? 32)%nat || (nat_of_ascii c =? 160)%nat.

(** The value of a digit of radix 16, [None] for any other code unit. *)
Definition hex_value (c : ascii) : option Z :=
  let n := nat_of_ascii c in
  if (48 <=? n)%nat && (n <=? 57)%nat then Some (Z.of_nat n - 48)
  else if (97 <=? n)%nat && (n <=? 102)%nat then Some (Z.of_nat n - 87)
  else if (65 <=? n)%nat && (n <=? 70)%nat then Some (Z.of_nat n - 55)
  else None.

Definition is_hex_digit (c : ascii) : bool :=
  match hex_value c with Some _ => true | None => false end.

(** The longest run of code units of a class at the head of a string,
    and what follows it. *)
Fixpoint span (p : ascii -> bool) (s : string) : string * string :=
  match s with
  | String c s' =>
      if p c then (String c (fst (span p s')), snd (span p s'))
      else (EmptyString, s)
  | EmptyString => (EmptyString, EmptyString)
  end.

(** What follows a literal at the head of a string. *)
Fixpoint after (literal s : string) : option string :=
  match literal, s with
  | EmptyString, _ => Some s
  | String c literal', String d s' =>
      if Ascii.eqb c d then after literal' s' else None
  | String _ _, EmptyString => None
  end.

Fixpoint digits_value (radix acc : Z) (s : string) : Z :=
  match s with
  | String c s' =>
      digits_value radix (acc * radix + default 0 (hex_value c)) s'
  | EmptyString => acc
  end.

(** [parseInt(s)] ([radix16] false) and [parseInt(s, 16)] ([radix16]
    true): white space is skipped, then a sign, then a prefix [0x] or
    [0X], which makes the radix 16; the value is that of the longest run
    of digits, NaN when the run is empty.  The value is the exact
    integer; the source returns the nearest double, which is that
    integer for a run of value at most 2^53. *)
Definition parseInt (s : string) (radix16 : bool) : number :=
  let s := snd (span is_space s) in
  let '(sign, s) :=
    match s with
    | String "-" s' => (-1, s')
    | String "+" s' => (1, s')
    | _ => (1, s)
    end in
  let '(hex, s) :=
    match s with
    | String "0" (String "x" s') => (true, s')
    | String "0" (String "X" s') => (true, s')
    | _ => (radix16, s)
    end in
  let run := fst (span (if hex then is_hex_digit else is_digit) s) in
  match run with
  | EmptyString => NaN
  | _ => Fin (inject_Z (sign * digits_value (if hex then 16 else 10) 0 run))
  end.

(** [/rgb\((\d+),\s*(\d+),\s*(\d+)\)/] tried at the head of a string; the
    three groups of a match.  What has to follow a [\d+] is no digit and
    what has to follow a [\s*] is no white space, so only the longest
    run can lead to a match. *)
Definition match_here (s : string) : option (string * string * string) :=
  match after "rgb(" s with
  | None => None
  | Some s =>
      let '(m1, s) := span is_digit s in
      match m1, after "," s with
      | String _ _, Some s =>
          let '(m2, s) := span is_digit (snd (span is_space s)) in
          match m2, after "," s with
          | String _ _, Some s =>
              let '(m3, s) := span is_digit (snd (span is_space s)) in
              match m3, after ")" s with
              | String _ _, Some _ => Some (m1, m2, m3)
              | _, _ => None
              end
          | _, _ => None
          end
      | _, _ => None
      end
  end.

(** [color.match(...)]: the match that starts leftmost, [None] being
    [null]. *)
Fixpoint regex_match (s : string) : option (string * string * string) :=
  match match_here s with
  | Some m => Some m
  | None =>
      match s with
      | String _ s' => regex_match s'
      | EmptyString => None
      end
  end.

(** [a + b] for a finite [b] *)
Definition plus_finite (a : number) (b : Q) : number :=
  match a with
  | Fin x => Fin (x + b)
  | _ => a
  end.

Definition Math_min (a b : number) : number :=
  match a, b with
  | NaN, _ | _, NaN => NaN
  | NInf, _ | _, NInf => NInf
  | PInf, n | n, PInf => n
  | Fin x, Fin y => Fin (Qmin x y)
  end.

Definition Math_max (a b : number) : number :=
  match a, b with
  | NaN, _ | _, NaN => NaN
  | PInf, _ | _, PInf => PInf
  | NInf, n | n, NInf => n
  | Fin x, Fin y => Fin (Qmax x y)
  end.

(** The text of [Math.floor(n)] in a template, for a floor below 10^21
    in magnitude. *)
Definition floor_text (n : number) : string :=
  match n with
  | Fin q => pretty (Qfloor q)
  | PInf => "Infinity"
  | NInf => "-Infinity"
  | NaN => "NaN"
  end.

Definition adjustRgbBrightness (r g b : number) (percent : Q) : string :=
  let r := Math_max (Fin 0) (Math_min (Fin 255) (plus_finite r percent)) in
  let g := Math_max (Fin 0) (Math_min (Fin 255) (plus_finite g percent)) in
  let b := Math_max (Fin 0) (Math_min (Fin 255) (plus_finite b percent)) in
  "rgb(" +:+ floor_text r +:+ ", " +:+ floor_text g +:+ ", "
    +:+ floor_text b +:+ ")".

Definition adjustBrightness (color : string) (percent : Q) : string :=
  if String.prefix "#" color then
    let r := parseInt (String.substring 1 2 color) true in
    let g := parseInt (String.substring 3 2 color) true in
    let b := parseInt (String.substring 5 2 color) true in
    adjustRgbBrightness r g b percent
  else if String.prefix "rgb" color then
    match regex_match color with
    | Some (m1, m2, m3) =>
        let r := parseInt m1 false in
        let g := parseInt m2 false in
        let b := parseInt m3 false in
        adjustRgbBrightness r g b percent
    | None => color
    end
  else color.

(** The text [rgb(${r}, ${g}, ${b})] of three integers. *)
Definition rgb_text (r g b : Z) : string :=
  "rgb(" +:+ pretty r +:+ ", " +:+ pretty g +:+ ", " +:+ pretty b +:+ ")".

(** [drawIsometricTile]: the colour of a water tile, on one line.  The
    arguments are the values of the sums [100 + normalizedValue * 100]
    and [150 + normalizedValue * 100] as the source computes them, in
    doubles: of [100, 200] and [150, 250] for a [normalizedValue] of
    [0, 1]. *)
Definition waterColor (green blue : Q) : string :=
  "rgb(0, " +:+ floor_text (Fin green) +:+ ", "
    +:+ floor_text (Fin blue) +:+ ")".

Definition line_feed : string := String "010" EmptyString.

(** [drawIsometricTile]: the colour of a land tile, a template that runs
    over five lines of the source, with three draws of [Math.random]. *)
Definition landColor (normalizedValue persistence rnd1 rnd2 rnd3 : Q)
  : string :=
  let variationFactor := Qmin 1 (persistence * 2) in
  "rgb(" +:+ line_feed +:+ "            "
    +:+ floor_text
          (Fin (50 + normalizedValue * 100
                + (rnd1 * 20 - 10) * variationFactor))
    +:+ ", " +:+ line_feed +:+ "            "
    +:+ floor_text
          (Fin (100 + normalizedValue * 100
                + (rnd2 * 20 - 10) * variationFactor))
    +:+ ", " +:+ line_feed +:+ "            "
    +:+ floor_text
          (Fin (normalizedValue * 50 + (rnd3 * 10 - 5) * variationFactor))
    +:+ line_feed +:+ "        " +:+ ")".

(** Whether a code unit occurs in a string. *)
Fixpoint occurs (c : ascii) (s : string) : bool :=
  match s with
  | String d s' => Ascii.eqb c d || occurs c s'
  | EmptyString => false
  end.

End PerlinVisualizer.

(** * Properties *)

(** ** The embedding on concrete inputs *)

Example fold_seed_5 : fold_seed 5 = 1285.
Proof. reflexivity. Qed.

Example fold_seed_minus_1 : fold_seed (-1) = -1.
Proof. reflexivity. Qed.

Example fold_seed_wraps : fold_seed (- 2 ^ 32 + 5) = 1285.
Proof. reflexivity. Qed.

Example scale_seed_half : scale_seed (1 # 2) == 32768.
Proof. reflexivity. Qed.

Example js_div_by_zero :
  js_div 1 0 = PInf /\ js_div (- (1)) 0 = NInf /\ js_div 0 0 = NaN.
Proof. repeat split. Qed.

(** The first round of the shuffle for the seed 12345 draws index 24. *)
Example first_round_12345 :
  let sp := shuffle_step 255 (12345, fill_identity 256 0 ∅) in
  fst sp = 207482415
  /\ get (snd sp) 255 = Some 24 /\ get (snd sp) 24 = Some 255.
Proof. vm_compute. repeat split. Qed.

(** The first round for the seed -1 draws index -1. *)
Example first_round_minus_1 :
  let sp := shuffle_step 255 (-1, fill_identity 256 0 ∅) in
  fst sp = -16807
  /\ get (snd sp) 255 = None /\ get (snd sp) (-1) = Some 255.
Proof. vm_compute. repeat split. Qed.

Example sample_12345 :
  exists r,
    result (noise2D (1 # 2) (1 # 2)) (exec (seed 12345) (mkField ∅ ∅)) =
      Ret r
    /\ r == - (1 # 8).
Proof. eexists. split; [vm_compute; reflexivity | reflexivity]. Qed.

(** ** Array reads and writes *)

Lemma get_put {A : Type} (a : gmap Z (option A)) (k j : Z) (v : option A) :
  get (put a k v) j = if decide (k = j) then v else get a j.
Proof.
  unfold get, put. rewrite lookup_insert.
  destruct (decide (k = j)); reflexivity.
Qed.

(** ** Sampling only reads the tables *)

Lemma plus_num_0 (h : option Z) : plus_num h 0 = h.
Proof. destruct h; simpl; [rewrite Z.add_0_r|]; reflexivity. Qed.

Lemma noise2D_run (x y : Q) (st : Field) :
  noise2D x y st = (noise2D_value st x y, st).
Proof.
  unfold noise2D, noise2D_value, corner, bind, read_perm, grad, bind,
    read_gradP, ret, throw, get_at, dot.
  rewrite !Z.add_0_r, !plus_num_0.
  repeat match goal with
  | |- context [get (gradP st) ?k] =>
      destruct (get (gradP st) k) as [[? ?]|]; simpl; try reflexivity
  end.
Qed.

Lemma noise2D_exec (x y : Q) (st : Field) : exec (noise2D x y) st = st.
Proof. unfold exec. rewrite noise2D_run. reflexivity. Qed.

Lemma noise2D_result (x y : Q) (st : Field) :
  result (noise2D x y) st = noise2D_value st x y.
Proof. unfold result. rewrite noise2D_run. reflexivity. Qed.

Lemma octave_loop_exec (n : nat) (x y p l : Q) (vars : Q * Q * Q * Q)
    (st : Field) :
  exec (octave_loop n x y p l vars) st = st.
Proof.
  revert vars. induction n as [|n IH]; intros [[[t f] a] m]; simpl.
  - reflexivity.
  - unfold exec, bind in *. rewrite noise2D_run.
    destruct (noise2D_value st (x * f) (y * f)); [apply IH | reflexivity].
Qed.

Lemma perlin2D_exec (x y : Q) (o : Z) (p l : Q) (st : Field) :
  exec (perlin2D x y o p l) st = st.
Proof.
  unfold perlin2D, exec, bind.
  pose proof (octave_loop_exec (Z.to_nat o) x y p l (0%Q, 1%Q, 1%Q, 0%Q) st)
    as H.
  unfold exec in H.
  destruct (octave_loop _ _ _ _ _ _ st) as [[[[[t f] a] m]|] st'];
    simpl in *; congruence.
Qed.

Lemma fade_comp (s t : Q) : s == t -> fade s == fade t.
Proof. intros H. unfold fade. rewrite H. reflexivity. Qed.

Lemma lerp_comp (a a' b b' t t' : Q) :
  a == a' -> b == b' -> t == t' -> lerp a b t == lerp a' b' t'.
Proof. intros Ha Hb Ht. unfold lerp. rewrite Ha, Hb, Ht. reflexivity. Qed.

Lemma dot_comp (g : Z * Z) (x x' y y' : Q) :
  x == x' -> y == y' -> dot g x y == dot g x' y'.
Proof. intros Hx Hy. unfold dot. rewrite Hx, Hy. reflexivity. Qed.

Lemma noise2D_value_comp (st : Field) (x x' y y' : Q) :
  x == x' -> y == y' ->
  outcome_eq (noise2D_value st x y) (noise2D_value st x' y').
Proof.
  intros Hx Hy. unfold noise2D_value.
  rewrite <- (Qfloor_comp _ _ Hx), <- (Qfloor_comp _ _ Hy).
  repeat match goal with
  | |- context [corner st ?X ?Y ?dx ?dy] => destruct (corner st X Y dx dy)
  end; simpl; trivial.
  assert (Hxf : x - inject_Z (Qfloor x) == x' - inject_Z (Qfloor x))
    by lra.
  assert (Hyf : y - inject_Z (Qfloor y) == y' - inject_Z (Qfloor y))
    by lra.
  repeat apply lerp_comp; try apply dot_comp; try apply fade_comp;
    try assumption; lra.
Qed.

(** ** What [seed] leaves in the tables *)

Lemma duplicate_perm (n : nat) (p : gmap Z (option Z)) :
  forall (i : Z) (st : Field) (k : Z),
  perm (exec (duplicate n i p) st) !! k =
    if decide (i <= k < i + Z.of_nat n) then Some (get p k)
    else if decide (i + 256 <= k < i + 256 + Z.of_nat n)
         then Some (get p (k - 256))
         else perm st !! k.
Proof.
  induction n as [|n IH]; intros i st k.
  - simpl. repeat case_decide; try lia. reflexivity.
  - change (exec (duplicate (S n) i p) st)
      with (exec (duplicate n (i + 1) p)
              (mkField (put (put (perm st) (i + 256) (get p i)) i (get p i))
                 (put (put (gradP st) (i + 256) (grad3_at (get p i))) i
                    (grad3_at (get p i))))).
    rewrite IH. simpl. unfold put. rewrite !lookup_insert.
    repeat case_decide; try lia; subst; try reflexivity.
    replace (i + 256 - 256) with i by lia. reflexivity.
Qed.

Lemma duplicate_gradP (n : nat) (p : gmap Z (option Z)) :
  forall (i : Z) (st : Field) (k : Z),
  gradP (exec (duplicate n i p) st) !! k =
    if decide (i <= k < i + Z.of_nat n) then Some (grad3_at (get p k))
    else if decide (i + 256 <= k < i + 256 + Z.of_nat n)
         then Some (grad3_at (get p (k - 256)))
         else gradP st !! k.
Proof.
  induction n as [|n IH]; intros i st k.
  - simpl. repeat case_decide; try lia. reflexivity.
  - change (exec (duplicate (S n) i p) st)
      with (exec (duplicate n (i + 1) p)
              (mkField (put (put (perm st) (i + 256) (get p i)) i (get p i))
                 (put (put (gradP st) (i + 256) (grad3_at (get p i))) i
                    (grad3_at (get p i))))).
    rewrite IH. simpl. unfold put. rewrite !lookup_insert.
    repeat case_decide; try lia; subst; try reflexivity.
    replace (i + 256 - 256) with i by lia. reflexivity.
Qed.

Lemma seed_unfold (v : Q) : seed v = duplicate 256 0 (shuffled v).
Proof. unfold seed, shuffled. reflexivity. Qed.

Lemma seed_perm (v : Q) (st : Field) (k : Z) :
  perm (exec (seed v) st) !! k =
    if decide (0 <= k < 256) then Some (get (shuffled v) k)
    else if decide (256 <= k < 512) then Some (get (shuffled v) (k - 256))
         else perm st !! k.
Proof.
  rewrite seed_unfold, duplicate_perm.
  repeat case_decide; try lia; reflexivity.
Qed.

Lemma seed_gradP (v : Q) (st : Field) (k : Z) :
  gradP (exec (seed v) st) !! k =
    if decide (0 <= k < 256) then Some (grad3_at (get (shuffled v) k))
    else if decide (256 <= k < 512)
         then Some (grad3_at (get (shuffled v) (k - 256)))
         else gradP st !! k.
Proof.
  rewrite seed_unfold, duplicate_gradP.
  repeat case_decide; try lia; reflexivity.
Qed.

Lemma Field_eq (s t : Field) :
  perm s = perm t -> gradP s = gradP t -> s = t.
Proof. destruct s, t. simpl. intros -> ->. reflexivity. Qed.

(** A seeding overwrites whatever an earlier seeding wrote. *)
Lemma seed_after_seed (v w : Q) (st : Field) :
  exec (seed v) (exec (seed w) st) = exec (seed v) st.
Proof.
  apply Field_eq; apply map_eq; intros k.
  - rewrite !(seed_perm v). repeat case_decide; try reflexivity.
    rewrite seed_perm. repeat case_decide; try lia. reflexivity.
  - rewrite !(seed_gradP v). repeat case_decide; try reflexivity.
    rewrite seed_gradP. repeat case_decide; try lia. reflexivity.
Qed.

(** ** Determinism, purity and reseeding *)

(** C3: two fresh fields, whatever their constructors drew, seeded with
    the same value give the same sample at every point; and sampling is
    pure: neither [noise2D] nor [perlin2D] changes the tables, so a call
    repeated on one field returns what it returned before. *)
Theorem sampling_deterministic_and_pure :
  (forall s rnd1 rnd2 x y : Q,
     result (noise2D x y) (exec (seed s) (constructor rnd1)) =
     result (noise2D x y) (exec (seed s) (constructor rnd2)))
  /\ (forall (st : Field) (x y : Q), exec (noise2D x y) st = st)
  /\ (forall (st : Field) (x y : Q) (o : Z) (p l : Q),
        exec (perlin2D x y o p l) st = st)
  /\ (forall (st : Field) (x y x' y' : Q) (o : Z) (p l : Q),
        result (noise2D x y) (exec (noise2D x' y') st) =
          result (noise2D x y) st
        /\ result (noise2D x y) (exec (perlin2D x' y' o p l) st) =
          result (noise2D x y) st
        /\ result (perlin2D x y o p l) (exec (perlin2D x' y' o p l) st) =
          result (perlin2D x y o p l) st).
Proof.
  split; [|split; [|split]].
  - intros s rnd1 rnd2 x y. unfold constructor.
    rewrite !seed_after_seed. reflexivity.
  - intros st x y. apply noise2D_exec.
  - intros st x y o p l. apply perlin2D_exec.
  - intros st x y x' y' o p l.
    rewrite noise2D_exec, perlin2D_exec. repeat split.
Qed.

(** C8: seeding with [A], then [B], then [A] again leaves both tables
    exactly as the first seeding with [A] left them, from whatever state
    the field was in, and therefore every plain and fractal sample too. *)
Theorem reseed_reproduces_tables (A B : Q) (st : Field) :
  let first := exec (seed A) st in
  let again := exec (seed A) (exec (seed B) (exec (seed A) st)) in
  perm again = perm first /\ gradP again = gradP first
  /\ (forall x y : Q,
        result (noise2D x y) again = result (noise2D x y) first)
  /\ (forall (x y : Q) (o : Z) (p l : Q),
        result (perlin2D x y o p l) again =
        result (perlin2D x y o p l) first).
Proof.
  intros first again.
  assert (E : again = first).
  { unfold again, first. rewrite !seed_after_seed. reflexivity. }
  rewrite E. repeat split.
Qed.

(** ** The fractal sum at its boundaries *)

(** C9: with [octaves = 0] the loop body never runs, so the loop
    variables keep their initial values, and the method returns the
    quotient of total 0 by normalisation sum 0, which is NaN; nothing is
    thrown and the field is untouched. *)
Theorem perlin2D_zero_octaves (st : Field) (x y p l : Q) :
  octave_loop (Z.to_nat 0) x y p l (0%Q, 1%Q, 1%Q, 0%Q) st =
    (Ret (0%Q, 1%Q, 1%Q, 0%Q), st)
  /\ perlin2D x y 0 p l st = (Ret (js_div 0 0), st)
  /\ js_div 0 0 = NaN.
Proof. repeat split. Qed.

(** C7: a one-octave fractal sample is the plain sample at the same
    point, for every persistence and lacunarity (and it throws exactly
    when the plain sample throws). *)
Theorem perlin2D_one_octave (st : Field) (x y p l : Q) :
  same_sample (result (perlin2D x y 1 p l) st) (result (noise2D x y) st).
Proof.
  rewrite noise2D_result. unfold result, perlin2D, bind.
  change (Z.to_nat 1) with 1%nat. simpl. unfold bind.
  rewrite noise2D_run.
  pose proof (noise2D_value_comp st (x * 1) x (y * 1) y) as H.
  destruct (noise2D_value st (x * 1) (y * 1)) as [s|],
    (noise2D_value st x y) as [n|]; simpl in *;
    try (apply H; lra).
  unfold js_div.
  assert (Hn : s == n) by (apply H; lra).
  replace (Qeq_bool (0 + 1) 0) with false by reflexivity.
  simpl. rewrite <- Hn. field.
Qed.

(** ** The shuffle on a non-negative seed *)

Lemma swap_get (p : gmap Z (option Z)) (i r k : Z) :
  get (swap p i r) k = get p (transpose i r k).
Proof.
  unfold swap, transpose. rewrite !get_put.
  repeat case_decide; subst; congruence.
Qed.

Lemma transpose_range (i r k : Z) :
  0 <= i < 256 -> 0 <= r < 256 -> 0 <= k < 256 ->
  0 <= transpose i r k < 256.
Proof. unfold transpose. repeat case_decide; lia. Qed.

Lemma transpose_involutive (i r k : Z) :
  transpose i r (transpose i r k) = k.
Proof. unfold transpose. repeat case_decide; congruence. Qed.

Lemma bijective256_swap (p : gmap Z (option Z)) (i r : Z) :
  0 <= i < 256 -> 0 <= r < 256 ->
  bijective256 p -> bijective256 (swap p i r).
Proof.
  intros Hi Hr (Hran & Hsur & Hinj). repeat split.
  - intros k Hk. rewrite swap_get. apply Hran, transpose_range; assumption.
  - intros n Hn. destruct (Hsur n Hn) as (k & Hk & E).
    exists (transpose i r k). split.
    + apply transpose_range; assumption.
    + rewrite swap_get, transpose_involutive. exact E.
  - intros k j Hk Hj. rewrite !swap_get. intros E.
    apply Hinj in E; try (apply transpose_range; assumption).
    rewrite <- (transpose_involutive i r k), E.
    apply transpose_involutive.
Qed.

Lemma fill_identity_get (n : nat) :
  forall (i : Z) (p : gmap Z (option Z)) (k : Z),
  get (fill_identity n i p) k =
    if decide (i <= k < i + Z.of_nat n) then Some k else get p k.
Proof.
  induction n as [|n IH]; intros i p k.
  - simpl. case_decide; [lia | reflexivity].
  - cbn [fill_identity]. rewrite IH, get_put.
    repeat case_decide; subst; try lia; reflexivity.
Qed.

Lemma bijective256_identity : bijective256 (fill_identity 256 0 ∅).
Proof.
  assert (E : forall k, 0 <= k < 256 ->
                get (fill_identity 256 0 ∅) k = Some k).
  { intros k Hk. rewrite fill_identity_get. case_decide; [reflexivity | lia]. }
  repeat split.
  - intros k Hk. exists k. auto.
  - intros n Hn. exists n. auto.
  - intros k j Hk Hj. rewrite !E by assumption. congruence.
Qed.

(** The pick index of the source is an integer quotient. *)
Lemma pick_quotient (s i : Z) :
  Qfloor ((inject_Z s / 2147483647) * inject_Z (i + 1))%Q =
  (s * (i + 1)) / 2147483647.
Proof.
  rewrite (Qfloor_comp _ ((s * (i + 1)) # 2147483647)).
  - reflexivity.
  - unfold Qeq, Qdiv, Qmult, Qinv, inject_Z. simpl. lia.
Qed.

Lemma pick_range (s i : Z) :
  0 <= s < 2147483647 -> 0 <= i ->
  0 <= (s * (i + 1)) / 2147483647 <= i.
Proof.
  intros Hs Hi. split.
  - apply Z.div_pos; nia.
  - apply Z.lt_succ_r, Z.div_lt_upper_bound; nia.
Qed.

Lemma shuffle_step_swap (i s : Z) (p : gmap Z (option Z)) :
  shuffle_step i (s, p) =
  (js_rem (s * 16807) 2147483647,
   swap p i ((js_rem (s * 16807) 2147483647 * (i + 1)) / 2147483647)).
Proof. unfold shuffle_step, swap. rewrite pick_quotient. reflexivity. Qed.

Lemma lcg_nonneg (s : Z) :
  0 <= s -> 0 <= js_rem (s * 16807) 2147483647 < 2147483647.
Proof. intros Hs. unfold js_rem. apply Z.rem_bound_pos; lia. Qed.

Lemma shuffle_bijective (n : nat) :
  forall (s : Z) (p : gmap Z (option Z)),
  (n < 256)%nat -> 0 <= s -> bijective256 p ->
  bijective256 (snd (shuffle n (s, p))).
Proof.
  induction n as [|n IH]; intros s p Hn Hs Hp.
  - exact Hp.
  - cbn [shuffle]. rewrite shuffle_step_swap.
    pose proof (lcg_nonneg s Hs) as Hl.
    pose proof (pick_range _ (Z.of_nat (S n)) Hl ltac:(lia)) as Hr.
    apply IH; [lia | lia |].
    apply bijective256_swap; [lia | lia | exact Hp].
Qed.

Lemma ToInt32_small (z : Z) : 0 <= z < 2 ^ 31 -> ToInt32 z = z.
Proof.
  intros Hz. unfold ToInt32.
  rewrite Z.mod_small by lia.
  destruct (Z.ltb_spec z (2 ^ 31)); lia.
Qed.

Lemma scale_seed_nonneg (v : Q) : (0 <= v)%Q -> (0 <= scale_seed v)%Q.
Proof.
  intros Hv. unfold scale_seed.
  destruct (Qlt_bool 0 v && Qlt_bool v 1); lra.
Qed.

Lemma Qfloor_nonneg (q : Q) : (0 <= q)%Q -> 0 <= Qfloor q.
Proof. intros Hq. apply (Qfloor_resp_le 0 q Hq). Qed.

Lemma fold_seed_nonneg (s : Z) : 0 <= s -> 0 <= fold_seed s.
Proof.
  intros Hs. unfold fold_seed.
  destruct (Z.ltb_spec s 256) as [Hlt|]; [|assumption].
  unfold js_or, js_shl. change (8 mod 32) with 8.
  rewrite (ToInt32_small s) by lia.
  rewrite Z.shiftl_mul_pow2 by lia. change (2 ^ 8) with 256.
  rewrite (ToInt32_small (s * 256)) by lia.
  rewrite (ToInt32_small (s * 256)) by lia.
  apply Z.lor_nonneg. lia.
Qed.

Lemma shuffled_bijective (v : Q) : (0 <= v)%Q -> bijective256 (shuffled v).
Proof.
  intros Hv. unfold shuffled. apply shuffle_bijective.
  - lia.
  - apply fold_seed_nonneg, Qfloor_nonneg, scale_seed_nonneg, Hv.
  - apply bijective256_identity.
Qed.

(** ** The tables after a seeding *)

Lemma seed_get_perm (v : Q) (st : Field) (k : Z) :
  0 <= k < 256 ->
  get (perm (exec (seed v) st)) k = get (shuffled v) k
  /\ get (perm (exec (seed v) st)) (k + 256) = get (shuffled v) k.
Proof.
  intros Hk. unfold get at 1 3. rewrite !seed_perm.
  repeat case_decide; try lia.
  replace (k + 256 - 256) with k by lia. split; reflexivity.
Qed.

Lemma seed_get_gradP (v : Q) (st : Field) (k : Z) :
  0 <= k < 256 ->
  get (gradP (exec (seed v) st)) k = grad3_at (get (shuffled v) k)
  /\ get (gradP (exec (seed v) st)) (k + 256) = grad3_at (get (shuffled v) k).
Proof.
  intros Hk. unfold get at 1 3. rewrite !seed_gradP.
  repeat case_decide; try lia.
  replace (k + 256 - 256) with k by lia. split; reflexivity.
Qed.

Lemma grad3_at_mod (n : Z) :
  0 <= n -> grad3_at (Some n) = grad3 !! Z.to_nat (n mod 8).
Proof.
  intros Hn. unfold grad3_at, js_rem.
  rewrite Z.rem_mod_nonneg by lia.
  destruct (Z.leb_spec 0 (n mod 8)) as [|Hneg]; [reflexivity|].
  pose proof (Z.mod_pos_bound n 8). lia.
Qed.

(** The invariant holds after seeding with any non-negative value,
    whatever the field held before. *)
Lemma seed_tables_ok (v : Q) (st : Field) :
  (0 <= v)%Q -> tables_ok (exec (seed v) st).
Proof.
  intros Hv. destruct (shuffled_bijective v Hv) as (Hran & Hsur & Hinj).
  split.
  - apply Forall_forall. intros i Hi. apply elem_of_seqZ in Hi.
    assert (Hi' : 0 <= i < 256) by lia.
    destruct (Hran i Hi') as (n & Hn & E).
    destruct (seed_get_perm v st i Hi') as [E1 E2].
    destruct (seed_get_gradP v st i Hi') as [G1 G2].
    unfold slot_ok. rewrite E1, E2, G1, G2, E, grad3_at_mod by lia.
    auto.
  - apply NoDup_Permutation.
    + apply NoDup_fmap_2_strong; [|apply NoDup_seqZ].
      intros k j Hk Hj. apply elem_of_seqZ in Hk, Hj.
      destruct (seed_get_perm v st k ltac:(lia)) as [-> _].
      destruct (seed_get_perm v st j ltac:(lia)) as [-> _].
      apply Hinj; lia.
    + apply NoDup_fmap_2; [apply _ | apply NoDup_seqZ].
    + intros x. rewrite !list_elem_of_fmap. split.
      * intros (k & -> & Hk). apply elem_of_seqZ in Hk.
        destruct (seed_get_perm v st k ltac:(lia)) as [-> _].
        destruct (Hran k ltac:(lia)) as (n & Hn & ->).
        exists n. split; [reflexivity|]. apply elem_of_seqZ. lia.
      * intros (n & -> & Hn). apply elem_of_seqZ in Hn.
        destruct (Hsur n ltac:(lia)) as (k & Hk & E).
        exists k. split; [|apply elem_of_seqZ; lia].
        destruct (seed_get_perm v st k Hk) as [-> _]. congruence.
Qed.

Lemma constructor_tables_ok (rnd : Q) :
  (0 <= rnd)%Q -> tables_ok (constructor rnd).
Proof. apply seed_tables_ok. Qed.

(** ** Bounds on the pieces of a sample *)

Lemma lerp_mono (a b A B t : Q) :
  (0 <= t <= 1 -> a <= A -> b <= B -> lerp a b t <= lerp A B t)%Q.
Proof. intros Ht Ha Hb. unfold lerp. nra. Qed.

Lemma square_nonneg (a : Q) : (0 <= a * a)%Q.
Proof. nra. Qed.

Lemma fade_range (t : Q) : (0 <= t <= 1 -> 0 <= fade t <= 1)%Q.
Proof.
  intros Ht.
  assert (E0 : (fade t ==
               t * t * t * (6 * ((t - (5 # 4)) * (t - (5 # 4))) + (5 # 8)))%Q)
    by (unfold fade; ring).
  assert (E1 : (fade t ==
               1 - (1 - t) * (1 - t) * (1 - t) * (6 * (t * t) + 3 * t + 1))%Q)
    by (unfold fade; ring).
  pose proof (square_nonneg (t - (5 # 4))) as Hs.
  pose proof (square_nonneg t) as Hs'.
  split.
  - rewrite E0. repeat apply Qmult_le_0_compat; lra.
  - assert (H : (0 <= (1 - t) * (1 - t) * (1 - t)
                      * (6 * (t * t) + 3 * t + 1))%Q)
      by (repeat apply Qmult_le_0_compat; lra).
    lra.
Qed.

(** The weight the fade curve gives to the nearer of the two distances
    [t] and [1 - t] keeps their blend at or below one half. *)
Lemma hat_bound (t : Q) : (lerp t (1 - t) (fade t) <= 1 # 2)%Q.
Proof.
  set (s := (t - (1 # 2))%Q).
  set (k := (s * s - (5 # 12))%Q).
  assert (E : (lerp t (1 - t) (fade t) ==
              (1 # 2) - 2 * (s * s) * (6 * (k * k) + (5 # 6)))%Q)
    by (unfold lerp, fade, k, s; ring).
  assert (H : (0 <= 2 * (s * s) * (6 * (k * k) + (5 # 6)))%Q).
  { pose proof (square_nonneg s). pose proof (square_nonneg k).
    apply Qmult_le_0_compat; lra. }
  lra.
Qed.

Lemma fraction_range (x : Q) :
  (0 <= x - inject_Z (Qfloor x) /\ x - inject_Z (Qfloor x) < 1)%Q.
Proof.
  pose proof (Qfloor_le x) as Hl. pose proof (Qlt_floor x) as Hu.
  rewrite inject_Z_plus in Hu. change (inject_Z 1) with 1%Q in Hu.
  split; lra.
Qed.

(** A palette vector dotted with an offset is at most the sum of the
    bounds of the two components of the offset. *)
Lemma dot_bound (g : Z * Z) (a b A B : Q) :
  g ∈ grad3 ->
  (- A <= a <= A -> - B <= b <= B ->
   - (A + B) <= dot g a b <= A + B)%Q.
Proof.
  intros Hg Ha Hb. unfold grad3 in Hg.
  rewrite !elem_of_cons, elem_of_nil in Hg.
  unfold dot.
  destruct Hg as [->|[->|[->|[->|[->|[->|[->|[->|[]]]]]]]]];
    cbn [fst snd]; unfold inject_Z; lra.
Qed.

(** The blend of four corner values that stay within the corner
    distances stays within 1. *)
Lemma blend_bound (xf yf a b c d : Q) :
  (0 <= xf <= 1 -> 0 <= yf <= 1 ->
   a <= xf + yf -> b <= xf + (1 - yf) ->
   c <= (1 - xf) + yf -> d <= (1 - xf) + (1 - yf) ->
   lerp (lerp a b (fade yf)) (lerp c d (fade yf)) (fade xf) <= 1)%Q.
Proof.
  intros Hx Hy Ha Hb Hc Hd.
  pose proof (fade_range xf Hx) as Hu.
  pose proof (fade_range yf Hy) as Hv.
  pose proof (hat_bound xf) as Hhx.
  pose proof (hat_bound yf) as Hhy.
  apply Qle_trans with
    (lerp (lerp (xf + yf) (xf + (1 - yf)) (fade yf))
          (lerp ((1 - xf) + yf) ((1 - xf) + (1 - yf)) (fade yf))
          (fade xf)).
  - apply lerp_mono; [exact Hu | |]; apply lerp_mono; assumption.
  - assert (E : (lerp (lerp (xf + yf) (xf + (1 - yf)) (fade yf))
                   (lerp ((1 - xf) + yf) ((1 - xf) + (1 - yf)) (fade yf))
                   (fade xf) ==
                 lerp xf (1 - xf) (fade xf) + lerp yf (1 - yf) (fade yf))%Q)
      by (unfold lerp; ring).
    lra.
Qed.

Lemma blend_opp (a b c d u v : Q) :
  (- lerp (lerp a b v) (lerp c d v) u ==
   lerp (lerp (- a) (- b) v) (lerp (- c) (- d) v) u)%Q.
Proof. unfold lerp. ring. Qed.

(** ** Sampling a field whose tables satisfy the invariant *)

Lemma js_and_255 (z : Z) : js_and z 255 = z mod 256.
Proof.
  unfold js_and. change (ToInt32 255) with (Z.ones 8).
  rewrite Z.land_ones by lia. change (2 ^ 8) with 256.
  unfold ToInt32. change (2 ^ 32) with 4294967296.
  change (2 ^ 31) with 2147483648.
  destruct (Z.ltb_spec (z mod 4294967296) 2147483648);
    Z.div_mod_to_equations; lia.
Qed.

Lemma js_and_255_range (z : Z) : 0 <= js_and z 255 < 256.
Proof. rewrite js_and_255. apply Z.mod_pos_bound. lia. Qed.

Lemma mask255_small (h : Z) : 0 <= h < 256 -> mask255 (Some h) = h.
Proof.
  intros Hh. unfold mask255. rewrite js_and_255. apply Z.mod_small, Hh.
Qed.

Lemma fade_spec_eq (t : Q) : fade t == fade_spec t.
Proof. unfold fade, fade_spec. ring. Qed.

Section Sampling.

Variable st : Field.
Hypothesis Hok : tables_ok st.

Lemma tables_ok_slot (i : Z) : 0 <= i < 256 -> slot_ok st i.
Proof.
  intros Hi. destruct Hok as [Hall _].
  rewrite Forall_forall in Hall. apply Hall, elem_of_seqZ. lia.
Qed.

Lemma tables_ok_perm (k : Z) :
  0 <= k < 512 -> exists n, 0 <= n < 256 /\ get (perm st) k = Some n.
Proof.
  intros Hk. destruct (Z_lt_ge_dec k 256) as [Hlt|Hge].
  - pose proof (tables_ok_slot k ltac:(lia)) as Hs. unfold slot_ok in Hs.
    destruct (get (perm st) k) as [n|]; [|contradiction].
    exists n. tauto.
  - pose proof (tables_ok_slot (k - 256) ltac:(lia)) as Hs.
    unfold slot_ok in Hs.
    destruct (get (perm st) (k - 256)) as [n|]; [|contradiction].
    replace (k - 256 + 256) with k in Hs by lia.
    exists n. tauto.
Qed.

Lemma tables_ok_gradP (k : Z) :
  0 <= k < 256 -> exists g, get (gradP st) k = Some g /\ g ∈ grad3.
Proof.
  intros Hk. pose proof (tables_ok_slot k Hk) as Hs. unfold slot_ok in Hs.
  destruct (get (perm st) k) as [n|]; [|contradiction].
  destruct Hs as (Hn & _ & Hg & _).
  destruct (lookup_lt_is_Some_2 grad3 (Z.to_nat (n mod 8))) as [g E].
  { simpl. pose proof (Z.mod_pos_bound n 8). lia. }
  exists g. split; [congruence|].
  apply list_elem_of_lookup. eauto.
Qed.

(** Every corner of every cell has a gradient of the palette, found by
    two composed lookups in the permutation table; the reference
    definition finds the same one. *)
Lemma corner_ok (X Y dx dy : Z) :
  0 <= X < 256 -> 0 <= Y < 256 -> 0 <= dx <= 1 -> 0 <= dy <= 1 ->
  exists g,
    corner st X Y dx dy = Some g
    /\ g ∈ grad3
    /\ gradient_spec st (hash_spec st X Y dx dy) = g.
Proof.
  intros HX HY Hdx Hdy.
  destruct (tables_ok_perm (X + dx) ltac:(lia)) as (a & Ha & Ea).
  destruct (tables_ok_perm (a + Y + dy) ltac:(lia)) as (h & Hh & Eh).
  destruct (tables_ok_gradP h Hh) as (g & Eg & Hg).
  exists g. repeat split; try assumption.
  - unfold corner. rewrite Ea. simpl. rewrite Eh, mask255_small by lia.
    exact Eg.
  - unfold gradient_spec, hash_spec, perm_spec.
    rewrite Ea. simpl. rewrite Eh. simpl. rewrite Eg. reflexivity.
Qed.

(** Name the gradients of the four corners of cell [(X, Y)] and replace
    the reads of [noise2D] by them. *)
Ltac four_corners X Y HX HY :=
  destruct (corner_ok X Y 0 0 HX HY) as (?g00 & -> & ?P00 & ?S00);
    [lia | lia |];
  destruct (corner_ok X Y 0 1 HX HY) as (?g01 & -> & ?P01 & ?S01);
    [lia | lia |];
  destruct (corner_ok X Y 1 0 HX HY) as (?g10 & -> & ?P10 & ?S10);
    [lia | lia |];
  destruct (corner_ok X Y 1 1 HX HY) as (?g11 & -> & ?P11 & ?S11);
    [lia | lia |].

(** C1: on a field whose tables satisfy the invariant, [noise2D] returns
    the reference single-octave value: cell by floor and mask, quintic
    fade of the fractional offsets, corner hashes by two composed table
    lookups, gradients dotted with the offsets from the corners, and two
    nested linear interpolations by the fade weights. *)
Theorem noise2D_refines_spec (x y : Q) :
  exists r, result (noise2D x y) st = Ret r /\ r == noise2D_spec st x y.
Proof.
  rewrite noise2D_result. unfold noise2D_value, noise2D_spec, cell_spec.
  rewrite <- !js_and_255.
  pose proof (js_and_255_range (Qfloor x)) as HX.
  pose proof (js_and_255_range (Qfloor y)) as HY.
  set (X := js_and (Qfloor x) 255) in *.
  set (Y := js_and (Qfloor y) 255) in *.
  four_corners X Y HX HY.
  eexists. split; [reflexivity|].
  unfold contribution_spec. rewrite S00, S01, S10, S11.
  unfold lerp, lerp_spec, dot, fade, fade_spec.
  change (inject_Z 0) with 0%Q. change (inject_Z 1) with 1%Q. ring.
Qed.

(** C10: at integer coordinates both fractional offsets are 0, so both
    fade weights are 0 and the sample is the first corner's gradient
    dotted with the zero vector: [noise2D] returns 0, whatever values the
    tables hold. *)
Theorem noise2D_integer_point (a b : Z) :
  exists r,
    result (noise2D (inject_Z a) (inject_Z b)) st = Ret r /\ r == 0.
Proof.
  rewrite noise2D_result. unfold noise2D_value. rewrite !Qfloor_Z.
  pose proof (js_and_255_range a) as HX.
  pose proof (js_and_255_range b) as HY.
  set (X := js_and a 255) in *. set (Y := js_and b 255) in *.
  four_corners X Y HX HY.
  eexists. split; [reflexivity|].
  unfold lerp, dot, fade. ring.
Qed.

(** The value computed from the four corner gradients is within 1 of 0. *)
Lemma noise2D_value_range (x y : Q) :
  exists r, noise2D_value st x y = Ret r /\ (- (1) <= r <= 1)%Q.
Proof.
  unfold noise2D_value.
  pose proof (js_and_255_range (Qfloor x)) as HX.
  pose proof (js_and_255_range (Qfloor y)) as HY.
  set (X := js_and (Qfloor x) 255) in *.
  set (Y := js_and (Qfloor y) 255) in *.
  destruct (fraction_range x) as [Hx0 Hx1].
  destruct (fraction_range y) as [Hy0 Hy1].
  set (xf := (x - inject_Z (Qfloor x))%Q) in *.
  set (yf := (y - inject_Z (Qfloor y))%Q) in *.
  four_corners X Y HX HY.
  eexists. split; [reflexivity|].
  pose proof (dot_bound g00 xf yf xf yf P00) as B00.
  pose proof (dot_bound g01 xf (yf - 1) xf (1 - yf) P01) as B01.
  pose proof (dot_bound g10 (xf - 1) yf (1 - xf) yf P10) as B10.
  pose proof (dot_bound g11 (xf - 1) (yf - 1) (1 - xf) (1 - yf) P11) as B11.
  split.
  - pose proof (blend_opp (dot g00 xf yf) (dot g01 xf (yf - 1))
                  (dot g10 (xf - 1) yf) (dot g11 (xf - 1) (yf - 1))
                  (fade xf) (fade yf)) as E.
    assert (H : (lerp (lerp (- dot g00 xf yf) (- dot g01 xf (yf - 1))
                         (fade yf))
                   (lerp (- dot g10 (xf - 1) yf)
                         (- dot g11 (xf - 1) (yf - 1)) (fade yf))
                   (fade xf) <= 1)%Q)
      by (apply blend_bound; lra).
    lra.
  - apply blend_bound; lra.
Qed.


End Sampling.

(** ** The fractal sum *)

Lemma js_div_nonzero (a b : Q) : ~ b == 0 -> js_div a b = Fin (a / b).
Proof.
  intros Hb. unfold js_div.
  destruct (Qeq_bool b 0) eqn:E; [|reflexivity].
  apply Qeq_bool_iff in E. contradiction.
Qed.


Section FractalRange.

Variable st : Field.
Hypothesis Hok : tables_ok st.

Variables x y persistence lacunarity : Q.
Hypothesis Hpers : (0 <= persistence)%Q.



End FractalRange.


(** ** A negative seed *)

Lemma shuffled_minus_one_255 : get (shuffled (-1)) 255 = None.
Proof. vm_compute. reflexivity. Qed.

Lemma sample_throws_after_minus_one :
  result (noise2D 0 3) (exec (seed (-1)) (mkField ∅ ∅)) = Throw.
Proof. vm_compute. reflexivity. Qed.

(** C6 at the seed -1: the first round of the shuffle draws the index -1,
    which is no position of the sequence, so slot 255 of both tables is
    left [undefined], and sampling then fails at the point (0, 3). *)
Theorem seed_minus_one_leaves_holes (st : Field) :
  get (perm (exec (seed (-1)) st)) 255 = None
  /\ get (perm (exec (seed (-1)) st)) 511 = None
  /\ get (gradP (exec (seed (-1)) st)) 255 = None
  /\ ~ tables_ok (exec (seed (-1)) st)
  /\ result (noise2D 0 3) (exec (seed (-1)) (mkField ∅ ∅)) = Throw.
Proof.
  assert (H255 : 0 <= 255 < 256) by lia.
  destruct (seed_get_perm (-1) st 255 H255) as [P1 P2].
  destruct (seed_get_gradP (-1) st 255 H255) as [G1 _].
  rewrite shuffled_minus_one_255 in P1, P2, G1.
  split; [exact P1|]. split; [exact P2|]. split; [exact G1|]. split.
  - intros Hok. destruct (tables_ok_perm _ Hok 255) as (n & _ & E); [lia|].
    congruence.
  - exact sample_throws_after_minus_one.
Qed.

(** ** The seeding procedure against the specification *)

Lemma Qlt_bool_iff (a b : Q) : Qlt_bool a b = true <-> (a < b)%Q.
Proof.
  unfold Qlt_bool. rewrite negb_true_iff. split.
  - intros H. apply Qnot_le_lt. intros H'. apply Qle_bool_iff in H'.
    congruence.
  - intros H. destruct (Qle_bool b a) eqn:E; [|reflexivity].
    apply Qle_bool_iff in E. lra.
Qed.











(** ** The theorems at the field seeded with 12345 *)

Lemma seed_12345_ok : tables_ok (exec (seed 12345) (mkField ∅ ∅)).
Proof. apply (bool_decide_unpack _). vm_compute. exact I. Qed.


Lemma noise2D_refines_spec_witness :
  let st := exec (seed 12345) (mkField ∅ ∅) in
  tables_ok st
  /\ exists r, result (noise2D (1 # 2) (1 # 2)) st = Ret r
               /\ r == noise2D_spec st (1 # 2) (1 # 2).
Proof.
  split; [exact seed_12345_ok|].
  exact (noise2D_refines_spec _ seed_12345_ok (1 # 2) (1 # 2)).
Defined.

Lemma noise2D_integer_point_witness :
  let st := exec (seed 12345) (mkField ∅ ∅) in
  tables_ok st
  /\ exists r, result (noise2D (inject_Z 3) (inject_Z (-7))) st = Ret r
               /\ r == 0.
Proof.
  split; [exact seed_12345_ok|].
  exact (noise2D_integer_point _ seed_12345_ok 3 (-7)).
Defined.



(** * Further properties of the class *)

(** ** Seeding *)

(** X1: seeding with a value from 0 to 535919512985 (not negative, and
    the product with 16807 exact in a double) establishes the table
    invariant, whatever the field held before; in particular a newly
    constructed field, whose seed is a draw of [Math.random], satisfies
    it. *)
Theorem seed_nonnegative_establishes_invariant (v : Q) (st : Field) :
  (0 <= v <= inject_Z exact_seed_limit)%Q ->
  tables_ok (exec (seed v) st) /\ tables_ok (constructor v).
Proof.
  intros [Hv _]. split; [|unfold constructor]; apply seed_tables_ok, Hv.
Qed.

Lemma seed_nonnegative_establishes_invariant_witness :
  (0 <= 12345 <= inject_Z exact_seed_limit)%Q
  /\ tables_ok (exec (seed 12345) (mkField ∅ ∅))
  /\ tables_ok (constructor 12345).
Proof.
  assert (H : (0 <= 12345 <= inject_Z exact_seed_limit)%Q)
    by (split; vm_compute; discriminate).
  split; [exact H|].
  exact (seed_nonnegative_establishes_invariant 12345 (mkField ∅ ∅) H).
Defined.

(** Values only move in the shuffle: whatever the seed, a defined entry
    of the shuffled sequence is one of 0..255. *)
Lemma swap_values (p : gmap Z (option Z)) (i r : Z) :
  (forall k n, get p k = Some n -> 0 <= n < 256) ->
  forall k n, get (swap p i r) k = Some n -> 0 <= n < 256.
Proof. intros Hp k n. rewrite swap_get. apply Hp. Qed.

Lemma shuffle_values (n : nat) :
  forall sp : Z * gmap Z (option Z),
  (forall k m, get (snd sp) k = Some m -> 0 <= m < 256) ->
  forall k m, get (snd (shuffle n sp)) k = Some m -> 0 <= m < 256.
Proof.
  induction n as [|n IH]; intros [s p] Hp; [exact Hp|].
  cbn [shuffle]. apply IH. rewrite shuffle_step_swap. cbn [snd].
  apply swap_values, Hp.
Qed.

Lemma shuffled_values (v : Q) (k m : Z) :
  get (shuffled v) k = Some m -> 0 <= m < 256.
Proof.
  unfold shuffled. apply shuffle_values. cbn [snd]. clear k m.
  intros k m. rewrite fill_identity_get. case_decide.
  - intros [= <-]. lia.
  - unfold get. rewrite lookup_empty. discriminate.
Qed.

(** X2: after a seeding with any value, negative ones included, slot
    [i + 256] of either table repeats slot [i], the gradient slot is the
    palette vector selected by the permutation slot, a defined
    permutation entry is an integer of 0..255, and a gradient slot is
    [undefined] exactly when its permutation slot is. *)
Theorem seed_duplicates_halves (v : Q) (st : Field) (i : Z) :
  0 <= i < 256 ->
  let st' := exec (seed v) st in
  get (perm st') (i + 256) = get (perm st') i
  /\ get (gradP st') (i + 256) = get (gradP st') i
  /\ get (gradP st') i = grad3_at (get (perm st') i)
  /\ (forall n, get (perm st') i = Some n -> 0 <= n < 256)
  /\ (get (gradP st') i = None <-> get (perm st') i = None).
Proof.
  intros Hi st'. unfold st'.
  destruct (seed_get_perm v st i Hi) as [P1 P2].
  destruct (seed_get_gradP v st i Hi) as [G1 G2].
  rewrite P1, P2, G1, G2.
  split; [reflexivity|]. split; [reflexivity|]. split; [reflexivity|].
  split; [intros n; apply shuffled_values|].
  destruct (get (shuffled v) i) as [n|] eqn:E; [|tauto].
  pose proof (shuffled_values v i n E) as Hn.
  rewrite grad3_at_mod by lia.
  destruct (lookup_lt_is_Some_2 grad3 (Z.to_nat (n mod 8))) as [g ->].
  { simpl. pose proof (Z.mod_pos_bound n 8). lia. }
  split; discriminate.
Qed.

Lemma seed_duplicates_halves_witness :
  0 <= 255 < 256
  /\ let st' := exec (seed (-1)) (mkField ∅ ∅) in
     get (perm st') (255 + 256) = get (perm st') 255
     /\ get (gradP st') (255 + 256) = get (gradP st') 255
     /\ get (gradP st') 255 = grad3_at (get (perm st') 255)
     /\ (forall n, get (perm st') 255 = Some n -> 0 <= n < 256)
     /\ (get (gradP st') 255 = None <-> get (perm st') 255 = None).
Proof.
  assert (H : 0 <= 255 < 256) by lia.
  split; [exact H|].
  exact (seed_duplicates_halves (-1) (mkField ∅ ∅) 255 H).
Defined.

(** X3: a seeding writes the slots 0..511 of the two tables and nothing
    else: a property of either table under any other key is left as it
    was. *)
Theorem seed_writes_only_the_slots (v : Q) (st : Field) (k : Z) :
  ~ (0 <= k < 512) ->
  perm (exec (seed v) st) !! k = perm st !! k
  /\ gradP (exec (seed v) st) !! k = gradP st !! k.
Proof.
  intros Hk. rewrite seed_perm, seed_gradP.
  repeat case_decide; try lia. split; reflexivity.
Qed.

Lemma seed_writes_only_the_slots_witness :
  ~ (0 <= 600 < 512)
  /\ perm (exec (seed 7) (mkField {[600 := Some 9]} ∅)) !! 600 =
       perm (mkField {[600 := Some 9]} ∅) !! 600
  /\ gradP (exec (seed 7) (mkField {[600 := Some 9]} ∅)) !! 600 =
       gradP (mkField {[600 := Some 9]} ∅) !! 600.
Proof.
  assert (H : ~ (0 <= 600 < 512)) by lia.
  split; [exact H|].
  exact (seed_writes_only_the_slots 7 (mkField {[600 := Some 9]} ∅) 600 H).
Defined.

Lemma scale_seed_integer (n : Z) : scale_seed (inject_Z n) = inject_Z n.
Proof.
  unfold scale_seed.
  destruct (Qlt_bool 0 (inject_Z n)) eqn:E0; [|reflexivity].
  destruct (Qlt_bool (inject_Z n) 1) eqn:E1; [|reflexivity].
  apply Qlt_bool_iff in E0, E1.
  change 0%Q with (inject_Z 0) in E0. change 1%Q with (inject_Z 1) in E1.
  rewrite <- Zlt_Qlt in E0, E1. lia.
Qed.

Lemma seed_congruence (v w : Q) (st : Field) :
  fold_seed (Qfloor (scale_seed v)) = fold_seed (Qfloor (scale_seed w)) ->
  exec (seed v) st = exec (seed w) st.
Proof.
  intros E. rewrite !seed_unfold. unfold shuffled. rewrite E. reflexivity.
Qed.

(** X4: only the integer part of the (scaled) seed matters: a seed
    outside the open unit interval gives the tables of its floor, and a
    seed inside it gives the tables of the floor of 65536 times the
    seed. *)
Theorem seed_uses_integer_part (v : Q) (st : Field) :
  exec (seed v) st = exec (seed (inject_Z (Qfloor (scale_seed v)))) st
  /\ (~ (0 < v /\ v < 1)%Q ->
      exec (seed v) st = exec (seed (inject_Z (Qfloor v))) st)
  /\ ((0 < v /\ v < 1)%Q ->
      exec (seed v) st = exec (seed (inject_Z (Qfloor (v * 65536)))) st).
Proof.
  assert (G : exec (seed v) st =
              exec (seed (inject_Z (Qfloor (scale_seed v)))) st).
  { apply seed_congruence. rewrite scale_seed_integer, Qfloor_Z.
    reflexivity. }
  split; [exact G|]. split; intros H; rewrite G; unfold scale_seed.
  - destruct (Qlt_bool 0 v) eqn:E0; [|reflexivity].
    destruct (Qlt_bool v 1) eqn:E1; [|reflexivity].
    apply Qlt_bool_iff in E0, E1. tauto.
  - destruct H as [H0 H1].
    apply Qlt_bool_iff in H0, H1. rewrite H0, H1. reflexivity.
Qed.

Lemma seed_uses_integer_part_witness :
  (~ (0 < 123457 # 10 /\ 123457 # 10 < 1)%Q
   /\ exec (seed (123457 # 10)) (mkField ∅ ∅) =
      exec (seed (inject_Z (Qfloor (123457 # 10)))) (mkField ∅ ∅))
  /\ ((0 < 1 # 2 /\ 1 # 2 < 1)%Q
      /\ exec (seed (1 # 2)) (mkField ∅ ∅) =
         exec (seed (inject_Z (Qfloor ((1 # 2) * 65536)))) (mkField ∅ ∅)).
Proof.
  assert (H1 : ~ (0 < 123457 # 10 /\ 123457 # 10 < 1)%Q).
  { intros [_ H]. vm_compute in H. discriminate. }
  assert (H2 : (0 < 1 # 2 /\ 1 # 2 < 1)%Q) by (split; reflexivity).
  split.
  - split; [exact H1|].
    exact (proj1 (proj2 (seed_uses_integer_part (123457 # 10) (mkField ∅ ∅)))
             H1).
  - split; [exact H2|].
    exact (proj2 (proj2 (seed_uses_integer_part (1 # 2) (mkField ∅ ∅))) H2).
Defined.

Lemma fold_seed_small_check :
  forallb (fun n => fold_seed n =? 257 * n) (seqZ 0 256) = true.
Proof. vm_compute. reflexivity. Qed.

Lemma fold_seed_small (n : Z) : 0 <= n < 256 -> fold_seed n = 257 * n.
Proof.
  intros Hn. pose proof fold_seed_small_check as H.
  rewrite forallb_forall in H. apply Z.eqb_eq, H.
  apply list_elem_of_In, elem_of_seqZ. lia.
Qed.

(** X5: the fold of a small seed makes seeds collide: for every integer
    [n] of 0..255 the seeds [n] and [257 * n] give the same tables. *)
Theorem small_seed_collides (n : Z) (st : Field) :
  0 <= n < 256 ->
  exec (seed (inject_Z n)) st = exec (seed (inject_Z (257 * n))) st.
Proof.
  intros Hn. apply seed_congruence.
  rewrite !scale_seed_integer, !Qfloor_Z, fold_seed_small by exact Hn.
  unfold fold_seed. destruct (Z.ltb_spec (257 * n) 256) as [Hlt|Hge].
  - assert (n = 0) by lia. subst n. reflexivity.
  - reflexivity.
Qed.

Lemma small_seed_collides_witness :
  0 <= 5 < 256
  /\ exec (seed (inject_Z 5)) (mkField ∅ ∅) =
     exec (seed (inject_Z (257 * 5))) (mkField ∅ ∅).
Proof.
  assert (H : 0 <= 5 < 256) by lia.
  split; [exact H|].
  exact (small_seed_collides 5 (mkField ∅ ∅) H).
Defined.

(** X6: while the generator state is not negative and its product with
    16807 is at most 2^53, a round of the shuffle at an index [i] of
    0..255 leaves the state in [0, 2147483646] and exchanges position
    [i] with a position of [0, i], as a Fisher-Yates round must. *)
Theorem shuffle_round_in_range (i s : Z) (p : gmap Z (option Z)) :
  0 <= s -> s * 16807 <= 2 ^ 53 -> 0 <= i <= 255 ->
  exists s' r,
    shuffle_step i (s, p) = (s', swap p i r)
    /\ s' = js_rem (s * 16807) 2147483647
    /\ r = (s' * (i + 1)) / 2147483647
    /\ 0 <= s' < 2147483647
    /\ 0 <= r <= i.
Proof.
  intros Hs _ [Hi _]. pose proof (lcg_nonneg s Hs) as Hl.
  exists (js_rem (s * 16807) 2147483647),
    ((js_rem (s * 16807) 2147483647 * (i + 1)) / 2147483647).
  split; [apply shuffle_step_swap|].
  split; [reflexivity|]. split; [reflexivity|].
  split; [exact Hl|]. apply pick_range; assumption.
Qed.

Lemma shuffle_round_in_range_witness :
  0 <= 12345 /\ 12345 * 16807 <= 2 ^ 53 /\ 0 <= 255 <= 255
  /\ exists s' r,
       shuffle_step 255 (12345, fill_identity 256 0 ∅) =
         (s', swap (fill_identity 256 0 ∅) 255 r)
       /\ s' = js_rem (12345 * 16807) 2147483647
       /\ r = (s' * (255 + 1)) / 2147483647
       /\ 0 <= s' < 2147483647
       /\ 0 <= r <= 255.
Proof.
  assert (H1 : 0 <= 12345) by lia.
  assert (H2 : 12345 * 16807 <= 2 ^ 53) by (vm_compute; discriminate).
  assert (H3 : 0 <= 255 <= 255) by lia.
  split; [exact H1|]. split; [exact H2|]. split; [exact H3|].
  exact (shuffle_round_in_range 255 12345 (fill_identity 256 0 ∅) H1 H2
           H3).
Defined.

(** ** Negative seeds *)

Lemma ToInt32_int32 (z : Z) : - 2 ^ 31 <= z < 2 ^ 31 -> ToInt32 z = z.
Proof.
  intros Hz. unfold ToInt32.
  change (2 ^ 32) with 4294967296 in *. change (2 ^ 31) with 2147483648 in *.
  destruct (Z.ltb_spec (z mod 4294967296) 2147483648);
    Z.div_mod_to_equations; lia.
Qed.

Lemma land_le_l (x y : Z) : 0 <= x -> Z.land x y <= x.
Proof.
  intros Hx.
  assert (D : Z.land (Z.ldiff x y) (Z.land x y) = 0).
  { rewrite (Z.land_comm x y), Z.land_assoc, Z.land_ldiff. apply Z.land_0_l. }
  pose proof (Z.lor_ldiff_and x y) as E.
  rewrite <- (Z.lxor_lor _ _ D), <- (Z.add_nocarry_lxor _ _ D) in E.
  assert (0 <= Z.ldiff x y) by (apply Z.ldiff_nonneg; left; exact Hx).
  lia.
Qed.

Lemma lor_ge_negative (a b : Z) : a < 0 -> a <= Z.lor a b.
Proof.
  intros Ha. pose proof (Z.lnot_lor a b) as E.
  pose proof (land_le_l (Z.lnot a) (Z.lnot b)) as H.
  unfold Z.lnot in *. lia.
Qed.

Lemma generator_coprime : Z.gcd 2147483647 16807 = 1.
Proof. vm_compute. reflexivity. Qed.

(** A negative folded seed is no multiple of the modulus. *)
Lemma fold_seed_negative (x : Z) :
  - 2 ^ 31 <= x < 0 ->
  fold_seed x < 0 /\ ~ (2147483647 | fold_seed x).
Proof.
  intros Hx.
  assert (E : fold_seed x = Z.lor x (ToInt32 (js_shl x 8))).
  { unfold fold_seed. destruct (Z.ltb_spec x 256); [|lia].
    unfold js_or. rewrite (ToInt32_int32 x) by lia. reflexivity. }
  assert (Hneg : fold_seed x < 0).
  { rewrite E. apply Z.lor_neg. left. lia. }
  split; [exact Hneg|].
  intros [k Hk].
  assert (Hge : x <= fold_seed x) by (rewrite E; apply lor_ge_negative; lia).
  change (2 ^ 31) with 2147483648 in Hx.
  assert (Hk1 : k = -1) by nia.
  assert (Hx2 : x = - 2147483648 \/ x = - 2147483647) by lia.
  subst k. destruct Hx2 as [-> | ->]; vm_compute in Hk; discriminate Hk.
Qed.

Lemma lcg_negative (s : Z) :
  s < 0 -> ~ (2147483647 | s) ->
  - 2147483647 < js_rem (s * 16807) 2147483647 < 0.
Proof.
  intros Hs Hd. unfold js_rem.
  pose proof (Z.rem_bound_pos_neg (s * 16807) 2147483647
                ltac:(lia) ltac:(lia)) as Hb.
  assert (Hnz : Z.rem (s * 16807) 2147483647 <> 0).
  { intros E. apply Hd.
    apply (Z.gauss _ 16807); [|exact generator_coprime].
    rewrite Z.mul_comm. apply Z.rem_divide; [lia | exact E]. }
  lia.
Qed.

Lemma shuffle_succ (n : nat) (sp : Z * gmap Z (option Z)) :
  shuffle (S n) sp = shuffle n (shuffle_step (Z.of_nat (S n)) sp).
Proof. reflexivity. Qed.

(** Past the first round no round touches position 255. *)
Lemma shuffle_keeps_255 (n : nat) :
  forall (s : Z) (p : gmap Z (option Z)),
  (n < 255)%nat -> get p 255 = None ->
  get (snd (shuffle n (s, p))) 255 = None.
Proof.
  induction n as [|n IH]; intros s p Hn Hp; [exact Hp|].
  cbn [shuffle]. rewrite shuffle_step_swap. apply IH; [lia|].
  rewrite swap_get. unfold transpose.
  set (s' := js_rem (s * 16807) 2147483647).
  assert (Hs' : - 2147483647 < s' < 2147483647).
  { unfold s', js_rem.
    pose proof (Z.rem_bound_abs (s * 16807) 2147483647 ltac:(lia)). lia. }
  assert (Hr : (s' * (Z.of_nat (S n) + 1)) / 2147483647 < 255).
  { apply Z.div_lt_upper_bound; nia. }
  repeat case_decide; try lia. exact Hp.
Qed.

Lemma shuffled_negative_255 (v : Q) :
  (- (2147483648) <= v /\ v < 0)%Q -> get (shuffled v) 255 = None.
Proof.
  intros [Hlo Hhi].
  assert (Es : scale_seed v = v).
  { unfold scale_seed. destruct (Qlt_bool 0 v) eqn:E0; [|reflexivity].
    apply Qlt_bool_iff in E0. lra. }
  assert (Hx : - 2 ^ 31 <= Qfloor v < 0).
  { split.
    - change (- 2 ^ 31) with (Qfloor (inject_Z (- 2147483648))).
      apply Qfloor_resp_le. exact Hlo.
    - pose proof (Qfloor_le v) as Hf.
      assert (Hq : (inject_Z (Qfloor v) < inject_Z 0)%Q)
        by (change (inject_Z 0) with 0%Q; lra).
      rewrite <- Zlt_Qlt in Hq. exact Hq. }
  destruct (fold_seed_negative (Qfloor v) Hx) as [Hneg Hnd].
  pose proof (lcg_negative _ Hneg Hnd) as Hl.
  unfold shuffled. rewrite Es.
  rewrite (shuffle_succ 254), shuffle_step_swap.
  apply shuffle_keeps_255; [lia|].
  rewrite swap_get. unfold transpose.
  set (s1 := js_rem (fold_seed (Qfloor v) * 16807) 2147483647) in *.
  change (Z.of_nat 255) with 255.
  assert (Hr : (s1 * (255 + 1)) / 2147483647 < 0).
  { apply Z.div_lt_upper_bound; lia. }
  repeat case_decide; try lia.
  rewrite fill_identity_get. case_decide; [lia|].
  unfold get. rewrite lookup_empty. reflexivity.
Qed.

(** X7: every seed of [-2^31, 0) breaks the tables: the first round of
    the shuffle draws a negative index, so slot 255 of the permutation
    table, its duplicate 511 and slot 255 of the gradient table are left
    [undefined], and the table invariant fails. *)
Theorem negative_seed_leaves_holes (v : Q) (st : Field) :
  (- (2147483648) <= v /\ v < 0)%Q ->
  get (perm (exec (seed v) st)) 255 = None
  /\ get (perm (exec (seed v) st)) 511 = None
  /\ get (gradP (exec (seed v) st)) 255 = None
  /\ ~ tables_ok (exec (seed v) st).
Proof.
  intros Hv. pose proof (shuffled_negative_255 v Hv) as E.
  assert (H255 : 0 <= 255 < 256) by lia.
  destruct (seed_get_perm v st 255 H255) as [P1 P2].
  destruct (seed_get_gradP v st 255 H255) as [G1 _].
  rewrite E in P1, P2, G1.
  split; [exact P1|]. split; [exact P2|]. split; [exact G1|].
  intros Hok. destruct (tables_ok_perm _ Hok 255) as (n & _ & En); [lia|].
  congruence.
Qed.

Lemma negative_seed_leaves_holes_witness :
  (- (2147483648) <= - (7 # 2) /\ - (7 # 2) < 0)%Q
  /\ get (perm (exec (seed (- (7 # 2))) (mkField ∅ ∅))) 255 = None
  /\ get (perm (exec (seed (- (7 # 2))) (mkField ∅ ∅))) 511 = None
  /\ get (gradP (exec (seed (- (7 # 2))) (mkField ∅ ∅))) 255 = None
  /\ ~ tables_ok (exec (seed (- (7 # 2))) (mkField ∅ ∅)).
Proof.
  assert (H : (- (2147483648) <= - (7 # 2) /\ - (7 # 2) < 0)%Q).
  { split; [vm_compute; discriminate | reflexivity]. }
  split; [exact H|].
  exact (negative_seed_leaves_holes (- (7 # 2)) (mkField ∅ ∅) H).
Defined.

(** ** Degenerate seeds *)

Lemma shuffle_step_zero (i : Z) (p : gmap Z (option Z)) :
  shuffle_step i (0, p) = (0, swap p i 0).
Proof. rewrite shuffle_step_swap. reflexivity. Qed.

(** With the generator stuck at 0 every round exchanges with position 0,
    which moves every value one position down. *)
Lemma shuffle_zero (n : nat) :
  forall (p : gmap Z (option Z)) (k : Z),
  get (snd (shuffle n (0, p))) k =
    if decide (n = O) then get p k
    else if decide (0 <= k < Z.of_nat n) then get p (k + 1)
    else if decide (k = Z.of_nat n) then get p 0
    else get p k.
Proof.
  induction n as [|n IH]; intros p k; [reflexivity|].
  rewrite shuffle_succ, shuffle_step_zero, IH, !swap_get.
  unfold transpose. repeat case_decide; try lia; try reflexivity;
    f_equal; lia.
Qed.

Lemma shuffled_degenerate (v : Q) (k : Z) :
  (0 <= v)%Q -> (2147483647 | Qfloor (scale_seed v)) -> 0 <= k < 256 ->
  get (shuffled v) k = Some ((k + 1) mod 256).
Proof.
  intros Hv [c Hc] Hk.
  pose proof (Qfloor_nonneg _ (scale_seed_nonneg v Hv)) as Hn.
  assert (Hf : fold_seed (Qfloor (scale_seed v)) = Qfloor (scale_seed v)).
  { unfold fold_seed. destruct (Z.ltb_spec (Qfloor (scale_seed v)) 256);
      [|reflexivity].
    assert (c = 0) by nia. subst c. rewrite Hc. reflexivity. }
  unfold shuffled. rewrite Hf, (shuffle_succ 254), shuffle_step_swap.
  assert (Hr : js_rem (Qfloor (scale_seed v) * 16807) 2147483647 = 0).
  { unfold js_rem. rewrite Hc.
    replace (c * 2147483647 * 16807) with (c * 16807 * 2147483647) by ring.
    apply Z.rem_mul. lia. }
  rewrite Hr. change (0 * (Z.of_nat 255 + 1) / 2147483647) with 0.
  rewrite <- shuffle_step_zero, <- shuffle_succ, shuffle_zero.
  change (Z.of_nat 255) with 255.
  repeat case_decide; try lia; rewrite fill_identity_get;
    case_decide; try lia.
  - rewrite Z.mod_small by lia. reflexivity.
  - replace k with 255 by lia. reflexivity.
Qed.

(** X8: a seed from 0 to 535919512985 whose integer part (after
    scaling) is 0 or another multiple of 2147483647 leaves the
    generator stuck at 0, and the "shuffled" table is the rotation
    [perm[k] = (k + 1) mod 256]. *)
Theorem degenerate_seed_rotates (v : Q) (st : Field) (k : Z) :
  (0 <= v <= inject_Z exact_seed_limit)%Q ->
  (2147483647 | Qfloor (scale_seed v)) -> 0 <= k < 256 ->
  get (perm (exec (seed v) st)) k = Some ((k + 1) mod 256).
Proof.
  intros [Hv _] Hd Hk. destruct (seed_get_perm v st k Hk) as [-> _].
  apply shuffled_degenerate; assumption.
Qed.

Lemma degenerate_seed_rotates_witness :
  (0 <= 2147483647 <= inject_Z exact_seed_limit)%Q
  /\ (2147483647 | Qfloor (scale_seed 2147483647)) /\ 0 <= 255 < 256
  /\ get (perm (exec (seed 2147483647) (mkField ∅ ∅))) 255 =
     Some ((255 + 1) mod 256).
Proof.
  assert (H1 : (0 <= 2147483647 <= inject_Z exact_seed_limit)%Q)
    by (split; vm_compute; discriminate).
  assert (H2 : (2147483647 | Qfloor (scale_seed 2147483647)))
    by (exists 1; reflexivity).
  assert (H3 : 0 <= 255 < 256) by lia.
  split; [exact H1|]. split; [exact H2|]. split; [exact H3|].
  exact (degenerate_seed_rotates 2147483647 (mkField ∅ ∅) 255 H1 H2 H3).
Defined.

(** ** Single-octave sampling *)

Lemma Qfloor_add_integer (x : Q) (n : Z) :
  Qfloor (x + inject_Z n) = Qfloor x + n.
Proof.
  pose proof (Qfloor_le x) as Hl. pose proof (Qlt_floor x) as Hu.
  pose proof (Qfloor_le (x + inject_Z n)) as Hl'.
  pose proof (Qlt_floor (x + inject_Z n)) as Hu'.
  rewrite inject_Z_plus in Hu, Hu'. change (inject_Z 1) with 1%Q in Hu, Hu'.
  assert (H1 : (inject_Z (Qfloor (x + inject_Z n))
                < inject_Z (Qfloor x + n + 1))%Q).
  { rewrite !inject_Z_plus. change (inject_Z 1) with 1%Q. lra. }
  assert (H2 : (inject_Z (Qfloor x + n)
                < inject_Z (Qfloor (x + inject_Z n) + 1))%Q).
  { rewrite !inject_Z_plus. change (inject_Z 1) with 1%Q. lra. }
  rewrite <- Zlt_Qlt in H1, H2. lia.
Qed.

(** The sample is determined by the masked cell and the fractional
    offsets. *)
Lemma noise2D_value_cell (st : Field) (x x' y y' : Q) :
  js_and (Qfloor x) 255 = js_and (Qfloor x') 255 ->
  js_and (Qfloor y) 255 = js_and (Qfloor y') 255 ->
  x - inject_Z (Qfloor x) == x' - inject_Z (Qfloor x') ->
  y - inject_Z (Qfloor y) == y' - inject_Z (Qfloor y') ->
  outcome_eq (noise2D_value st x y) (noise2D_value st x' y').
Proof.
  intros EX EY Ex Ey. unfold noise2D_value. rewrite <- EX, <- EY.
  repeat match goal with
  | |- context [corner st ?X ?Y ?dx ?dy] => destruct (corner st X Y dx dy)
  end; simpl; trivial.
  repeat apply lerp_comp; try apply dot_comp; try apply fade_comp;
    try assumption; lra.
Qed.

(** X9: the sample is periodic with period 256 in either coordinate,
    in every state of the field: the cell index is masked to 8 bits. *)
Theorem noise2D_period_256 (st : Field) (x y : Q) (a b : Z) :
  outcome_eq
    (result (noise2D (x + inject_Z (256 * a)) (y + inject_Z (256 * b))) st)
    (result (noise2D x y) st).
Proof.
  rewrite !noise2D_result. apply noise2D_value_cell;
    rewrite ?Qfloor_add_integer, ?js_and_255, ?inject_Z_plus.
  - Z.div_mod_to_equations. lia.
  - Z.div_mod_to_equations. lia.
  - ring.
  - ring.
Qed.

Lemma mask255_range (h : option Z) : 0 <= mask255 h < 256.
Proof. destruct h; apply js_and_255_range. Qed.

(** X10: sampling never reads the upper half of the gradient table: on
    two fields with the same permutation table and the same gradient
    slots 0..255, [noise2D] returns the same result. *)
Theorem noise2D_ignores_upper_gradients
    (st : Field) (g : gmap Z (option (Z * Z))) (x y : Q) :
  (forall k, 0 <= k < 256 -> get g k = get (gradP st) k) ->
  result (noise2D x y) (mkField (perm st) g) = result (noise2D x y) st.
Proof.
  intros Hg. rewrite !noise2D_result. unfold noise2D_value, corner.
  cbn [perm gradP]. rewrite !Hg by apply mask255_range. reflexivity.
Qed.

Lemma noise2D_ignores_upper_gradients_witness :
  let st := exec (seed 12345) (mkField ∅ ∅) in
  let g := put (gradP st) 300 None in
  (forall k, 0 <= k < 256 -> get g k = get (gradP st) k)
  /\ result (noise2D (1 # 2) (1 # 2)) (mkField (perm st) g) =
     result (noise2D (1 # 2) (1 # 2)) st.
Proof.
  intros st g.
  assert (H : forall k, 0 <= k < 256 -> get g k = get (gradP st) k).
  { intros k Hk. unfold g. rewrite get_put. case_decide; [lia|reflexivity]. }
  split; [exact H|].
  exact (noise2D_ignores_upper_gradients st g (1 # 2) (1 # 2) H).
Defined.

(** The difference of two values of the fade curve, as the interval
    length times a sum of squares. *)
Lemma fade_difference (a b : Q) :
  let A := (a * (1 - a))%Q in
  let B := ((b - a) * (1 - 2 * a))%Q in
  let C := (- ((b - a) * (b - a)))%Q in
  fade b - fade a ==
  (b - a) * 30 * ((A + B / 2 + C / 3) * (A + B / 2 + C / 3)
                  + (B + C) * (B + C) / 12 + C * C / 180).
Proof. unfold fade. simpl. field. Qed.





(** ** The fractal sum beyond the usual arguments *)

(** X13: with a negative octave count, as with 0, the loop body never
    runs: [perlin2D] returns NaN (0 divided by 0), throws nothing and
    leaves the field as it was. *)
Theorem perlin2D_nonpositive_octaves
    (st : Field) (x y : Q) (octaves : Z) (p l : Q) :
  octaves <= 0 -> perlin2D x y octaves p l st = (Ret NaN, st).
Proof.
  intros Ho. unfold perlin2D.
  replace (Z.to_nat octaves) with O by lia. reflexivity.
Qed.

Lemma perlin2D_nonpositive_octaves_witness :
  -3 <= 0
  /\ perlin2D (1 # 2) (1 # 3) (-3) (1 # 2) 2 (mkField ∅ ∅) =
     (Ret NaN, mkField ∅ ∅).
Proof.
  assert (H : -3 <= 0) by lia.
  split; [exact H|].
  exact (perlin2D_nonpositive_octaves (mkField ∅ ∅) (1 # 2) (1 # 3) (-3)
           (1 # 2) 2 H).
Defined.

Lemma octave_round (n : nat) (x y p l t f a m : Q) (st : Field) :
  octave_loop (S n) x y p l (t, f, a, m) st =
  match noise2D_value st (x * f) (y * f) with
  | Ret s =>
      octave_loop n x y p l
        ((t + s * a)%Q, (f * l)%Q, (a * p)%Q, (m + a)%Q) st
  | Throw => (Throw, st)
  end.
Proof.
  cbn [octave_loop]. unfold bind at 1. rewrite noise2D_run.
  destruct (noise2D_value st (x * f) (y * f)); reflexivity.
Qed.

Lemma perlin2D_of_loop (x y : Q) (o : Z) (p l t f a m : Q) (st : Field) :
  result (octave_loop (Z.to_nat o) x y p l (0%Q, 1%Q, 1%Q, 0%Q)) st =
    Ret (t, f, a, m) ->
  result (perlin2D x y o p l) st = Ret (js_div t m).
Proof.
  unfold result, perlin2D, bind.
  destruct (octave_loop _ _ _ _ _ _ st) as [[vars|] st']; simpl;
    [|discriminate].
  intros [= ->]. reflexivity.
Qed.


Section FractalOnValidTables.

Variable st : Field.
Hypothesis Hok : tables_ok st.

Variables x y persistence lacunarity : Q.



(** Once the amplitude is 0 the remaining rounds change neither the
    total nor the amplitude sum. *)
Lemma octave_loop_silent (n : nat) :
  forall t f a m : Q,
  a == 0 ->
  exists t' f' a' m' : Q,
    result (octave_loop n x y persistence lacunarity (t, f, a, m)) st =
      Ret (t', f', a', m')
    /\ t' == t /\ m' == m.
Proof.
  induction n as [|n IH]; intros t f a m Ha.
  - exists t, f, a, m. repeat split; reflexivity.
  - unfold result. rewrite octave_round.
    destruct (noise2D_value_range st Hok (x * f) (y * f)) as (s & -> & _).
    destruct (IH (t + s * a)%Q (f * lacunarity)%Q (a * persistence)%Q
                (m + a)%Q) as (t' & f' & a' & m' & E & Et & Em).
    { rewrite Ha. ring. }
    exists t', f', a', m'. split; [exact E|].
    split; [rewrite Et, Ha; ring | rewrite Em, Ha; ring].
Qed.

(** X15: with persistence 0 every octave after the first has amplitude
    0, and the fractal sample is the plain sample at the same point, for
    every octave count of at least 1 and every lacunarity with which
    the loop stays within the finite doubles. *)
Theorem perlin2D_zero_persistence (octaves : Z) :
  1 <= octaves -> persistence == 0 ->
  finite_octaves x y octaves persistence lacunarity = true ->
  exists n r : Q,
    result (noise2D x y) st = Ret n
    /\ result (perlin2D x y octaves persistence lacunarity) st = Ret (Fin r)
    /\ r == n.
Proof.
  intros Ho Hp _.
  destruct (noise2D_value_range st Hok x y) as (n & En & _).
  pose proof (noise2D_value_comp st (x * 1) x (y * 1) y
                ltac:(ring) ltac:(ring)) as Hc.
  destruct (noise2D_value st (x * 1) (y * 1)) as [s|] eqn:Es;
    rewrite En in Hc; simpl in Hc; [|contradiction].
  destruct (octave_loop_silent (Z.to_nat octaves - 1)
              (0 + s * 1)%Q (1 * lacunarity)%Q (1 * persistence)%Q (0 + 1)%Q)
    as (t & f & a & m & E & Et & Em).
  { rewrite Hp. ring. }
  assert (El : result (octave_loop (Z.to_nat octaves) x y persistence
                         lacunarity (0%Q, 1%Q, 1%Q, 0%Q)) st =
               Ret (t, f, a, m)).
  { replace (Z.to_nat octaves) with (S (Z.to_nat octaves - 1)) by lia.
    unfold result in *. rewrite octave_round, Es. exact E. }
  exists n, (t / m)%Q. split; [rewrite noise2D_result; exact En|]. split.
  - rewrite (perlin2D_of_loop _ _ _ _ _ _ _ _ _ _ El).
    rewrite js_div_nonzero by lra. reflexivity.
  - rewrite Et, Em, Hc. field.
Qed.

Lemma integer_sample (a b : Z) :
  exists r, noise2D_value st (inject_Z a) (inject_Z b) = Ret r /\ r == 0.
Proof.
  unfold noise2D_value. rewrite !Qfloor_Z.
  pose proof (js_and_255_range a) as HX.
  pose proof (js_and_255_range b) as HY.
  set (X := js_and a 255) in *. set (Y := js_and b 255) in *.
  destruct (corner_ok st Hok X Y 0 0 HX HY) as (g00 & -> & _); [lia | lia |].
  destruct (corner_ok st Hok X Y 0 1 HX HY) as (g01 & -> & _); [lia | lia |].
  destruct (corner_ok st Hok X Y 1 0 HX HY) as (g10 & -> & _); [lia | lia |].
  destruct (corner_ok st Hok X Y 1 1 HX HY) as (g11 & -> & _); [lia | lia |].
  eexists. split; [reflexivity|].
  unfold lerp, dot, fade. ring.
Qed.

Hypothesis Hpers : (0 <= persistence)%Q.

(** While every octave samples an integer point the total stays 0. *)
Lemma octave_loop_on_integers (n : nat) :
  (forall f : Q,
     (exists a b : Z, x * f == inject_Z a /\ y * f == inject_Z b) ->
     exists a b : Z,
       x * (f * lacunarity) == inject_Z a
       /\ y * (f * lacunarity) == inject_Z b) ->
  forall t f a m : Q,
  (exists a b : Z, x * f == inject_Z a /\ y * f == inject_Z b) ->
  t == 0 -> (0 <= a)%Q -> (0 <= m)%Q ->
  exists t' f' a' m' : Q,
    result (octave_loop n x y persistence lacunarity (t, f, a, m)) st =
      Ret (t', f', a', m')
    /\ t' == 0 /\ (m <= m')%Q /\ (n <> O -> m + a <= m')%Q.
Proof.
  intros Hstep. induction n as [|n IH]; intros t f a m Hf Ht Ha Hm.
  - exists t, f, a, m. repeat split; try lra. congruence.
  - destruct Hf as (za & zb & Hx & Hy).
    destruct (integer_sample za zb) as (r & Er & Hr).
    pose proof (noise2D_value_comp st (x * f) (inject_Z za)
                  (y * f) (inject_Z zb) Hx Hy) as Hc.
    rewrite Er in Hc.
    destruct (noise2D_value st (x * f) (y * f)) as [s|] eqn:Es;
      simpl in Hc; [|contradiction].
    destruct (IH (t + s * a)%Q (f * lacunarity)%Q (a * persistence)%Q
                (m + a)%Q) as (t' & f' & a' & m' & E & Et & Hm' & _).
    { apply Hstep. exists za, zb. split; assumption. }
    { rewrite Ht, Hc, Hr. ring. }
    { apply Qmult_le_0_compat; assumption. }
    { lra. }
    exists t', f', a', m'. unfold result in *. rewrite octave_round, Es.
    repeat split; try assumption; lra.
Qed.

(** X16: when every octave samples a point of integer coordinates, the
    fractal sample is 0: so it is at the origin for every lacunarity,
    and at every point of integer coordinates for an integer lacunarity
    (octave count at least 1, persistence not negative, the loop within
    the finite doubles). *)
Theorem perlin2D_zero_on_integers (octaves : Z) :
  1 <= octaves ->
  finite_octaves x y octaves persistence lacunarity = true ->
  (x == 0 /\ y == 0)
  \/ (exists a b c : Z,
        x == inject_Z a /\ y == inject_Z b /\ lacunarity == inject_Z c) ->
  exists r : Q,
    result (perlin2D x y octaves persistence lacunarity) st = Ret (Fin r)
    /\ r == 0.
Proof.
  intros Ho _ Hcase.
  destruct (octave_loop_on_integers (Z.to_nat octaves)) with
    (t := 0%Q) (f := 1%Q) (a := 1%Q) (m := 0%Q)
    as (t & f & a & m & E & Et & _ & Hm); try lra.
  - intros f (za & zb & Hx & Hy).
    destruct Hcase as [[Hx0 Hy0] | (a & b & c & Ha & Hb & Hc)].
    + exists 0, 0. rewrite Hx0, Hy0. split; ring.
    + exists (za * c), (zb * c). rewrite !inject_Z_mult, <- Hx, <- Hy, Hc.
      split; ring.
  - destruct Hcase as [[Hx0 Hy0] | (a & b & c & Ha & Hb & Hc)].
    + exists 0, 0. rewrite Hx0, Hy0. split; ring.
    + exists a, b. rewrite Ha, Hb. split; ring.
  - exists (t / m)%Q.
    assert (Hm1 : (1 <= m)%Q).
    { assert (Hn : Z.to_nat octaves <> O) by lia. specialize (Hm Hn). lra. }
    split.
    + rewrite (perlin2D_of_loop _ _ _ _ _ _ _ _ _ _ E).
      rewrite js_div_nonzero by lra. reflexivity.
    + rewrite Et. field. lra.
Qed.

End FractalOnValidTables.


Lemma perlin2D_zero_persistence_witness :
  let st := exec (seed 12345) (mkField ∅ ∅) in
  tables_ok st /\ 1 <= 4 /\ 0 == 0
  /\ finite_octaves (13 # 10) (27 # 10) 4 0 2 = true
  /\ exists n r : Q,
       result (noise2D (13 # 10) (27 # 10)) st = Ret n
       /\ result (perlin2D (13 # 10) (27 # 10) 4 0 2) st = Ret (Fin r)
       /\ r == n.
Proof.
  assert (Ho : 1 <= 4) by lia.
  assert (Hp : 0 == 0) by reflexivity.
  assert (Hf : finite_octaves (13 # 10) (27 # 10) 4 0 2 = true)
    by (vm_compute; reflexivity).
  split; [exact seed_12345_ok|]. split; [exact Ho|]. split; [exact Hp|].
  split; [exact Hf|].
  exact (perlin2D_zero_persistence _ seed_12345_ok (13 # 10) (27 # 10) 0 2
           4 Ho Hp Hf).
Defined.

Lemma perlin2D_zero_on_integers_witness :
  let st := exec (seed 12345) (mkField ∅ ∅) in
  tables_ok st /\ (0 <= 1 # 2)%Q /\ 1 <= 4
  /\ finite_octaves 3 (-7) 4 (1 # 2) 2 = true
  /\ ((3 == 0 /\ -7 == 0)
      \/ (exists a b c : Z,
            3 == inject_Z a /\ -7 == inject_Z b /\ 2 == inject_Z c))
  /\ exists r : Q,
       result (perlin2D 3 (-7) 4 (1 # 2) 2) st = Ret (Fin r) /\ r == 0.
Proof.
  assert (Hp : (0 <= 1 # 2)%Q) by (vm_compute; discriminate).
  assert (Ho : 1 <= 4) by lia.
  assert (Hc : (3 == 0 /\ -7 == 0)
               \/ (exists a b c : Z,
                     3 == inject_Z a /\ -7 == inject_Z b /\ 2 == inject_Z c)).
  { right. exists 3, (-7), 2. repeat split; reflexivity. }
  assert (Hf : finite_octaves 3 (-7) 4 (1 # 2) 2 = true)
    by (vm_compute; reflexivity).
  split; [exact seed_12345_ok|]. split; [exact Hp|]. split; [exact Ho|].
  split; [exact Hf|]. split; [exact Hc|].
  exact (perlin2D_zero_on_integers _ seed_12345_ok 3 (-7) (1 # 2) 2 Hp 4 Ho
           Hf Hc).
Defined.

Section FlatLacunarity.

Variable st : Field.
Variables x y persistence lacunarity : Q.
Hypothesis Hlac : lacunarity == 1.
Hypothesis Hpers : (0 <= persistence)%Q.



End FlatLacunarity.


(** ** Continuity of the sample *)

Lemma fade_slope (a b : Q) :
  (15 # 8) * (b - a) - (fade b - fade a) == 30 * (b - a) * fade_slack a b.
Proof. unfold fade, fade_slack. simpl. field. Qed.

Lemma fade_slack_nonneg (a b : Q) :
  (0 <= a <= 1 -> 0 <= b <= 1 -> 0 <= fade_slack a b)%Q.
Proof.
  intros Ha Hb. unfold fade_slack.
  set (al := (a - (1 # 2))%Q). set (be := (b - a)%Q).
  pose proof (square_nonneg (al + be / 4)) as S1.
  pose proof (square_nonneg (al + be / 2)) as S2.
  pose proof (square_nonneg (al + 3 * be / 4)) as S3.
  pose proof (square_nonneg be) as S4.
  assert (D80 : (0 <= be * be / 80)%Q) by (apply Qle_shift_div_l; lra).
  assert (D120 : (0 <= be * be / 120)%Q) by (apply Qle_shift_div_l; lra).
  assert (D12 : (0 <= be * be / 12)%Q) by (apply Qle_shift_div_l; lra).
  assert (P1 : (0 <= a * (1 - a))%Q) by (apply Qmult_le_0_compat; lra).
  assert (P2 : (0 <= a * (1 - b) + b * (1 - a))%Q).
  { assert (0 <= a * (1 - b))%Q by (apply Qmult_le_0_compat; lra).
    assert (0 <= b * (1 - a))%Q by (apply Qmult_le_0_compat; lra). lra. }
  assert (P3 : (0 <= b * (1 - b))%Q) by (apply Qmult_le_0_compat; lra).
  assert (T1 : (0 <= a * (1 - a)
                     * ((1 # 3) * ((al + be / 4) * (al + be / 4))
                        + be * be / 80))%Q)
    by (apply Qmult_le_0_compat; lra).
  assert (T2 : (0 <= (a * (1 - b) + b * (1 - a))
                     * ((1 # 6) * ((al + be / 2) * (al + be / 2))
                        + be * be / 120))%Q)
    by (apply Qmult_le_0_compat; lra).
  assert (T3 : (0 <= b * (1 - b)
                     * ((1 # 3) * ((al + 3 * be / 4) * (al + 3 * be / 4))
                        + be * be / 80))%Q)
    by (apply Qmult_le_0_compat; lra).
  lra.
Qed.

Lemma fade_increasing (a b : Q) : (a <= b -> fade a <= fade b)%Q.
Proof.
  intros Hab. pose proof (fade_difference a b) as E. simpl in E.
  set (A := (a * (1 - a))%Q) in *.
  set (B := ((b - a) * (1 - 2 * a))%Q) in *.
  set (C := (- ((b - a) * (b - a)))%Q) in *.
  pose proof (square_nonneg (A + B / 2 + C / 3)) as H1.
  pose proof (square_nonneg (B + C)) as H2.
  pose proof (square_nonneg C) as H3.
  assert (H2' : (0 <= (B + C) * (B + C) / 12)%Q)
    by (apply Qle_shift_div_l; lra).
  assert (H3' : (0 <= C * C / 180)%Q) by (apply Qle_shift_div_l; lra).
  assert (H : (0 <= (b - a) * 30
                    * ((A + B / 2 + C / 3) * (A + B / 2 + C / 3)
                       + (B + C) * (B + C) / 12 + C * C / 180))%Q)
    by (apply Qmult_le_0_compat; lra).
  lra.
Qed.

Lemma fade_lipschitz (a b : Q) :
  (0 <= a -> a <= b -> b <= 1 ->
   0 <= fade b - fade a <= (15 # 8) * (b - a))%Q.
Proof.
  intros Ha Hab Hb. split; [pose proof (fade_increasing a b Hab); lra|].
  pose proof (fade_slope a b) as E.
  pose proof (fade_slack_nonneg a b ltac:(lra) ltac:(lra)) as Hs.
  assert (H : (0 <= 30 * (b - a) * fade_slack a b)%Q)
    by (apply Qmult_le_0_compat; lra).
  lra.
Qed.

(** One side of a cell: the blend of two corner contributions along y. *)
Lemma side_bound (ga gb : Z * Z) (dx yf A : Q) :
  ga ∈ grad3 -> gb ∈ grad3 ->
  (- A <= dx <= A -> 0 <= yf <= 1 ->
   - (A + (1 # 2)) <= lerp (dot ga dx yf) (dot gb dx (yf - 1)) (fade yf)
     <= A + (1 # 2))%Q.
Proof.
  intros Ha Hb Hdx Hy.
  pose proof (fade_range yf Hy) as Hv.
  pose proof (hat_bound yf) as Hh.
  pose proof (dot_bound ga dx yf A yf Ha Hdx ltac:(lra)) as B0.
  pose proof (dot_bound gb dx (yf - 1) A (1 - yf) Hb Hdx ltac:(lra)) as B1.
  assert (E : (lerp (A + yf) (A + (1 - yf)) (fade yf) ==
               A + lerp yf (1 - yf) (fade yf))%Q) by (unfold lerp; ring).
  assert (U : (lerp (dot ga dx yf) (dot gb dx (yf - 1)) (fade yf) <=
               lerp (A + yf) (A + (1 - yf)) (fade yf))%Q)
    by (apply lerp_mono; lra).
  assert (L : (lerp (- dot ga dx yf) (- dot gb dx (yf - 1)) (fade yf) <=
               lerp (A + yf) (A + (1 - yf)) (fade yf))%Q)
    by (apply lerp_mono; lra).
  assert (N : (lerp (- dot ga dx yf) (- dot gb dx (yf - 1)) (fade yf) ==
               - lerp (dot ga dx yf) (dot gb dx (yf - 1)) (fade yf))%Q)
    by (unfold lerp; ring).
  lra.
Qed.

Lemma palette_x (g : Z * Z) : g ∈ grad3 -> (- (1) <= inject_Z (fst g) <= 1)%Q.
Proof.
  intros Hg. unfold grad3 in Hg. rewrite !elem_of_cons, elem_of_nil in Hg.
  destruct Hg as [->|[->|[->|[->|[->|[->|[->|[->|[]]]]]]]]];
    cbn [fst]; unfold inject_Z; lra.
Qed.

Lemma within_cell (ga gb gc gd : Z * Z) (xf xf' yf : Q) :
  ga ∈ grad3 -> gb ∈ grad3 -> gc ∈ grad3 -> gd ∈ grad3 ->
  (0 <= xf -> xf <= xf' -> xf' <= 1 -> 0 <= yf <= 1 ->
   - ((19 # 4) * (xf' - xf))
   <= cell_blend ga gb gc gd xf' yf - cell_blend ga gb gc gd xf yf
   <= (19 # 4) * (xf' - xf))%Q.
Proof.
  intros Ha Hb Hc Hd H0 Hle H1 Hy.
  pose proof (fade_range yf Hy) as Hv.
  pose proof (fade_range xf ltac:(lra)) as Hu.
  pose proof (fade_lipschitz xf xf' H0 Hle H1) as Hf.
  pose proof (side_bound ga gb xf' yf xf' Ha Hb ltac:(lra) Hy) as N0.
  pose proof (side_bound gc gd (xf' - 1) yf (1 - xf') Hc Hd ltac:(lra) Hy) as N1.
  pose proof (palette_x ga Ha) as Xa. pose proof (palette_x gb Hb) as Xb.
  pose proof (palette_x gc Hc) as Xc. pose proof (palette_x gd Hd) as Xd.
  set (G0 := lerp (inject_Z (fst ga)) (inject_Z (fst gb)) (fade yf)).
  set (G1 := lerp (inject_Z (fst gc)) (inject_Z (fst gd)) (fade yf)).
  assert (HG0 : (- (1) <= G0 <= 1)%Q) by (unfold G0, lerp; split; nra).
  assert (HG1 : (- (1) <= G1 <= 1)%Q) by (unfold G1, lerp; split; nra).
  set (T := lerp G0 G1 (fade xf)).
  assert (HT : (- (1) <= T <= 1)%Q) by (unfold T, lerp; split; nra).
  set (N0' := lerp (dot ga xf' yf) (dot gb xf' (yf - 1)) (fade yf)) in *.
  set (N1' := lerp (dot gc (xf' - 1) yf) (dot gd (xf' - 1) (yf - 1)) (fade yf)) in *.
  assert (E : (cell_blend ga gb gc gd xf' yf - cell_blend ga gb gc gd xf yf ==
               (xf' - xf) * T + (fade xf' - fade xf) * (N1' - N0'))%Q).
  { unfold cell_blend, T, G0, G1, N0', N1', lerp, dot. ring. }
  rewrite E.
  set (du := (fade xf' - fade xf)%Q) in *. set (B := (N1' - N0')%Q).
  assert (HB : (- (2) <= B <= 2)%Q) by (unfold B; lra).
  set (D := (xf' - xf)%Q) in *.
  assert (HD : (0 <= D)%Q) by (unfold D; lra).
  split; nra.
Qed.

Lemma flip_palette (g : Z * Z) : g ∈ grad3 -> flip g ∈ grad3.
Proof.
  intros Hg. unfold grad3 in *. rewrite !elem_of_cons, elem_of_nil in Hg.
  destruct Hg as [->|[->|[->|[->|[->|[->|[->|[->|[]]]]]]]]];
    unfold flip; cbn [fst snd]; set_solver.
Qed.

Lemma cell_blend_flip (ga gb gc gd : Z * Z) (xf yf : Q) :
  cell_blend ga gb gc gd xf yf ==
  cell_blend (flip ga) (flip gc) (flip gb) (flip gd) yf xf.
Proof. unfold cell_blend, lerp, dot, flip. cbn [fst snd]. ring. Qed.

Lemma cell_blend_edge_x (ga gb gc gd ge gf : Z * Z) (yf : Q) :
  cell_blend ga gb gc gd 1 yf == cell_blend gc gd ge gf 0 yf.
Proof. unfold cell_blend, lerp, dot, fade. ring. Qed.

Lemma cell_blend_edge_y (ga gb gc gd ge gf : Z * Z) (xf : Q) :
  cell_blend ga gb gc gd xf 1 == cell_blend gb ge gd gf xf 0.
Proof. unfold cell_blend, lerp, dot, fade. ring. Qed.

Lemma within_cell_y (ga gb gc gd : Z * Z) (xf yf yf' : Q) :
  ga ∈ grad3 -> gb ∈ grad3 -> gc ∈ grad3 -> gd ∈ grad3 ->
  (0 <= yf -> yf <= yf' -> yf' <= 1 -> 0 <= xf <= 1 ->
   - ((19 # 4) * (yf' - yf))
   <= cell_blend ga gb gc gd xf yf' - cell_blend ga gb gc gd xf yf
   <= (19 # 4) * (yf' - yf))%Q.
Proof.
  intros Ha Hb Hc Hd H0 Hle H1 Hx.
  rewrite (cell_blend_flip ga gb gc gd xf yf'),
    (cell_blend_flip ga gb gc gd xf yf).
  apply within_cell; try apply flip_palette; assumption.
Qed.

Section Continuity.

Variable st : Field.
Hypothesis Hok : tables_ok st.

Lemma corner_next_x (X Y dy : Z) :
  0 <= X < 256 ->
  corner st ((X + 1) mod 256) Y 0 dy = corner st X Y 1 dy.
Proof.
  intros HX. unfold corner.
  destruct (Z_lt_ge_dec (X + 1) 256) as [Hlt|Hge].
  - rewrite Z.mod_small by lia. rewrite Z.add_0_r. reflexivity.
  - replace X with 255 by lia. change ((255 + 1) mod 256 + 0) with 0.
    change (255 + 1) with (0 + 256).
    pose proof (tables_ok_slot st Hok 0 ltac:(lia)) as Hs.
    unfold slot_ok in Hs.
    destruct (get (perm st) 0) as [n|]; [|contradiction].
    destruct Hs as (_ & -> & _). reflexivity.
Qed.

Lemma corner_next_y (X Y dx : Z) :
  0 <= X < 256 -> 0 <= Y < 256 -> 0 <= dx <= 1 ->
  corner st X ((Y + 1) mod 256) dx 0 = corner st X Y dx 1.
Proof.
  intros HX HY Hdx. unfold corner.
  destruct (tables_ok_perm st Hok (X + dx) ltac:(lia)) as (a & Ha & ->).
  cbn [plus_num get_at].
  destruct (Z_lt_ge_dec (Y + 1) 256) as [Hlt|Hge].
  - rewrite Z.mod_small by lia. do 2 f_equal. f_equal. lia.
  - replace Y with 255 by lia. change ((255 + 1) mod 256) with 0.
    replace (a + 0 + 0) with a by lia.
    replace (a + 255 + 1) with (a + 256) by lia.
    pose proof (tables_ok_slot st Hok a Ha) as Hs. unfold slot_ok in Hs.
    destruct (get (perm st) a) as [n|]; [|contradiction].
    destruct Hs as (_ & -> & _). reflexivity.
Qed.

Lemma value_blend (x y : Q) :
  exists ga gb gc gd : Z * Z,
    ga ∈ grad3 /\ gb ∈ grad3 /\ gc ∈ grad3 /\ gd ∈ grad3
    /\ corner st (js_and (Qfloor x) 255) (js_and (Qfloor y) 255) 0 0 = Some ga
    /\ corner st (js_and (Qfloor x) 255) (js_and (Qfloor y) 255) 0 1 = Some gb
    /\ corner st (js_and (Qfloor x) 255) (js_and (Qfloor y) 255) 1 0 = Some gc
    /\ corner st (js_and (Qfloor x) 255) (js_and (Qfloor y) 255) 1 1 = Some gd
    /\ noise2D_value st x y =
       Ret (cell_blend ga gb gc gd (x - inject_Z (Qfloor x))
              (y - inject_Z (Qfloor y))).
Proof.
  pose proof (js_and_255_range (Qfloor x)) as HX.
  pose proof (js_and_255_range (Qfloor y)) as HY.
  unfold noise2D_value.
  set (X := js_and (Qfloor x) 255) in *.
  set (Y := js_and (Qfloor y) 255) in *.
  destruct (corner_ok st Hok X Y 0 0 HX HY) as (ga & Ea & Pa & _); [lia|lia|].
  destruct (corner_ok st Hok X Y 0 1 HX HY) as (gb & Eb & Pb & _); [lia|lia|].
  destruct (corner_ok st Hok X Y 1 0 HX HY) as (gc & Ec & Pc & _); [lia|lia|].
  destruct (corner_ok st Hok X Y 1 1 HX HY) as (gd & Ed & Pd & _); [lia|lia|].
  exists ga, gb, gc, gd. rewrite Ea, Eb, Ec, Ed.
  repeat split; assumption || reflexivity.
Qed.

Lemma lipschitz_x_ordered (x x' y : Q) :
  (x <= x')%Q ->
  exists r r' : Q,
    noise2D_value st x y = Ret r /\ noise2D_value st x' y = Ret r'
    /\ (- ((19 # 4) * (x' - x)) <= r' - r <= (19 # 4) * (x' - x))%Q.
Proof.
  intros Hle.
  destruct (value_blend x y)
    as (ga & gb & gc & gd & Pa & Pb & Pc & Pd & Ca & Cb & Cc & Cd & E).
  destruct (value_blend x' y)
    as (ha & hb & hc & hd & Qa & Qb & Qc & Qd & Da & Db & Dc & Dd & E').
  destruct (fraction_range x) as [Hx0 Hx1].
  destruct (fraction_range x') as [Hx0' Hx1'].
  destruct (fraction_range y) as [Hy0 Hy1].
  pose proof (Qfloor_resp_le x x' Hle) as Hfl.
  exists (cell_blend ga gb gc gd (x - inject_Z (Qfloor x))
            (y - inject_Z (Qfloor y))),
    (cell_blend ha hb hc hd (x' - inject_Z (Qfloor x'))
            (y - inject_Z (Qfloor y))).
  split; [exact E|]. split; [exact E'|].
  set (xf := (x - inject_Z (Qfloor x))%Q) in *.
  set (xf' := (x' - inject_Z (Qfloor x'))%Q) in *.
  set (yf := (y - inject_Z (Qfloor y))%Q) in *.
  destruct (Z.eq_dec (Qfloor x') (Qfloor x)) as [Heq|Hne].
  - (* the same cell *)
    rewrite Heq in Da, Db, Dc, Dd.
    assert (ha = ga) by congruence. assert (hb = gb) by congruence.
    assert (hc = gc) by congruence. assert (hd = gd) by congruence.
    subst ha hb hc hd.
    assert (Hd : (xf' - xf == x' - x)%Q) by (unfold xf, xf'; rewrite Heq; ring).
    rewrite <- Hd.
    apply within_cell; try assumption; lra.
  - destruct (Z.eq_dec (Qfloor x') (Qfloor x + 1)) as [Hnext|Hfar].
    + (* adjacent cells *)
      assert (HX' : js_and (Qfloor x') 255 =
                    (js_and (Qfloor x) 255 + 1) mod 256).
      { rewrite !js_and_255, Hnext. Z.div_mod_to_equations. lia. }
      rewrite HX' in Da, Db.
      rewrite corner_next_x in Da, Db by apply js_and_255_range.
      assert (ha = gc) by congruence. assert (hb = gd) by congruence.
      subst ha hb.
      pose proof (within_cell gc gd hc hd 0 xf' yf Pc Pd Qc Qd
                    ltac:(lra) ltac:(lra) ltac:(lra) ltac:(lra)) as W1.
      pose proof (within_cell ga gb gc gd xf 1 yf Pa Pb Pc Pd
                    ltac:(lra) ltac:(lra) ltac:(lra) ltac:(lra)) as W2.
      pose proof (cell_blend_edge_x ga gb gc gd hc hd yf) as Ed.
      assert (Hd : (x' - x == xf' + (1 - xf))%Q).
      { unfold xf, xf'. rewrite Hnext, inject_Z_plus.
        change (inject_Z 1) with 1%Q. ring. }
      rewrite Hd. lra.
    + (* more than one cell apart *)
      destruct (noise2D_value_range st Hok x y) as (r & Er & Hr).
      destruct (noise2D_value_range st Hok x' y) as (r' & Er' & Hr').
      rewrite E in Er. rewrite E' in Er'.
      injection Er as Er. injection Er' as Er'. rewrite Er, Er'.
      assert (Hgap : (inject_Z (Qfloor x + 2) <= inject_Z (Qfloor x'))%Q).
      { rewrite <- Zle_Qle. lia. }
      rewrite inject_Z_plus in Hgap. change (inject_Z 2) with 2%Q in Hgap.
      unfold xf, xf' in *. lra.
Qed.

Lemma lipschitz_y_ordered (x y y' : Q) :
  (y <= y')%Q ->
  exists r r' : Q,
    noise2D_value st x y = Ret r /\ noise2D_value st x y' = Ret r'
    /\ (- ((19 # 4) * (y' - y)) <= r' - r <= (19 # 4) * (y' - y))%Q.
Proof.
  intros Hle.
  destruct (value_blend x y)
    as (ga & gb & gc & gd & Pa & Pb & Pc & Pd & Ca & Cb & Cc & Cd & E).
  destruct (value_blend x y')
    as (ha & hb & hc & hd & Qa & Qb & Qc & Qd & Da & Db & Dc & Dd & E').
  destruct (fraction_range x) as [Hx0 Hx1].
  destruct (fraction_range y) as [Hy0 Hy1].
  destruct (fraction_range y') as [Hy0' Hy1'].
  pose proof (Qfloor_resp_le y y' Hle) as Hfl.
  exists (cell_blend ga gb gc gd (x - inject_Z (Qfloor x))
            (y - inject_Z (Qfloor y))),
    (cell_blend ha hb hc hd (x - inject_Z (Qfloor x))
            (y' - inject_Z (Qfloor y'))).
  split; [exact E|]. split; [exact E'|].
  set (xf := (x - inject_Z (Qfloor x))%Q) in *.
  set (yf := (y - inject_Z (Qfloor y))%Q) in *.
  set (yf' := (y' - inject_Z (Qfloor y'))%Q) in *.
  destruct (Z.eq_dec (Qfloor y') (Qfloor y)) as [Heq|Hne].
  - rewrite Heq in Da, Db, Dc, Dd.
    assert (ha = ga) by congruence. assert (hb = gb) by congruence.
    assert (hc = gc) by congruence. assert (hd = gd) by congruence.
    subst ha hb hc hd.
    assert (Hd : (yf' - yf == y' - y)%Q) by (unfold yf, yf'; rewrite Heq; ring).
    rewrite <- Hd.
    apply within_cell_y; try assumption; lra.
  - destruct (Z.eq_dec (Qfloor y') (Qfloor y + 1)) as [Hnext|Hfar].
    + assert (HY' : js_and (Qfloor y') 255 =
                    (js_and (Qfloor y) 255 + 1) mod 256).
      { rewrite !js_and_255, Hnext. Z.div_mod_to_equations. lia. }
      rewrite HY' in Da, Dc.
      rewrite corner_next_y in Da, Dc by (apply js_and_255_range || lia).
      assert (ha = gb) by congruence. assert (hc = gd) by congruence.
      subst ha hc.
      pose proof (within_cell_y gb hb gd hd xf 0 yf' Pb Qb Pd Qd
                    ltac:(lra) ltac:(lra) ltac:(lra) ltac:(lra)) as W1.
      pose proof (within_cell_y ga gb gc gd xf yf 1 Pa Pb Pc Pd
                    ltac:(lra) ltac:(lra) ltac:(lra) ltac:(lra)) as W2.
      pose proof (cell_blend_edge_y ga gb gc gd hb hd xf) as Ed.
      assert (Hd : (y' - y == yf' + (1 - yf))%Q).
      { unfold yf, yf'. rewrite Hnext, inject_Z_plus.
        change (inject_Z 1) with 1%Q. ring. }
      rewrite Hd. lra.
    + destruct (noise2D_value_range st Hok x y) as (r & Er & Hr).
      destruct (noise2D_value_range st Hok x y') as (r' & Er' & Hr').
      rewrite E in Er. rewrite E' in Er'.
      injection Er as Er. injection Er' as Er'. rewrite Er, Er'.
      assert (Hgap : (inject_Z (Qfloor y + 2) <= inject_Z (Qfloor y'))%Q).
      { rewrite <- Zle_Qle. lia. }
      rewrite inject_Z_plus in Hgap. change (inject_Z 2) with 2%Q in Hgap.
      unfold yf, yf' in *. lra.
Qed.

Lemma lipschitz_x (x x' y : Q) :
  exists r r' : Q,
    noise2D_value st x y = Ret r /\ noise2D_value st x' y = Ret r'
    /\ (Qabs (r' - r) <= (19 # 4) * Qabs (x' - x))%Q.
Proof.
  destruct (Qlt_le_dec x' x) as [Hlt|Hle].
  - destruct (lipschitz_x_ordered x' x y ltac:(lra)) as (r' & r & E' & E & H).
    exists r, r'. split; [exact E|]. split; [exact E'|].
    apply Qabs_Qle_condition. rewrite (Qabs_neg (x' - x)) by lra. lra.
  - destruct (lipschitz_x_ordered x x' y Hle) as (r & r' & E & E' & H).
    exists r, r'. split; [exact E|]. split; [exact E'|].
    apply Qabs_Qle_condition. rewrite (Qabs_pos (x' - x)) by lra. lra.
Qed.

Lemma lipschitz_y (x y y' : Q) :
  exists r r' : Q,
    noise2D_value st x y = Ret r /\ noise2D_value st x y' = Ret r'
    /\ (Qabs (r' - r) <= (19 # 4) * Qabs (y' - y))%Q.
Proof.
  destruct (Qlt_le_dec y' y) as [Hlt|Hle].
  - destruct (lipschitz_y_ordered x y' y ltac:(lra)) as (r' & r & E' & E & H).
    exists r, r'. split; [exact E|]. split; [exact E'|].
    apply Qabs_Qle_condition. rewrite (Qabs_neg (y' - y)) by lra. lra.
  - destruct (lipschitz_y_ordered x y y' Hle) as (r & r' & E & E' & H).
    exists r, r'. split; [exact E|]. split; [exact E'|].
    apply Qabs_Qle_condition. rewrite (Qabs_pos (y' - y)) by lra. lra.
Qed.

(** X18: the sample is continuous, with no jump at the cell boundaries
    where the table lookups change, nor at the wrap from cell 255 to
    cell 0: it is Lipschitz with constant 19/4 in the sum of the
    coordinate distances. *)
Theorem noise2D_lipschitz (x y x' y' : Q) :
  exists r r' : Q,
    result (noise2D x y) st = Ret r /\ result (noise2D x' y') st = Ret r'
    /\ (Qabs (r' - r) <= (19 # 4) * (Qabs (x' - x) + Qabs (y' - y)))%Q.
Proof.
  rewrite !noise2D_result.
  destruct (lipschitz_x x x' y) as (r & m & E & Em & Hx).
  destruct (lipschitz_y x' y y') as (m' & r' & Em' & E' & Hy).
  rewrite Em in Em'. injection Em' as <-.
  exists r, r'. split; [exact E|]. split; [exact E'|].
  apply Qabs_Qle_condition in Hx, Hy. apply Qabs_Qle_condition. lra.
Qed.

End Continuity.

Lemma noise2D_lipschitz_witness :
  let st := exec (seed 12345) (mkField ∅ ∅) in
  tables_ok st
  /\ exists r r' : Q,
       result (noise2D (19 # 10) (27 # 10)) st = Ret r
       /\ result (noise2D (21 # 10) (31 # 10)) st = Ret r'
       /\ (Qabs (r' - r) <=
           (19 # 4) * (Qabs ((21 # 10) - (19 # 10))
                       + Qabs ((31 # 10) - (27 # 10))))%Q.
Proof.
  split; [exact seed_12345_ok|].
  exact (noise2D_lipschitz _ seed_12345_ok (19 # 10) (27 # 10) (21 # 10)
           (31 # 10)).
Defined.

(** ** Sampling at coordinates that may be NaN or an infinity *)

Lemma noise2D_num_run (x y : number) (st : Field) :
  noise2D_num x y st = (noise2D_num_value st x y, st).
Proof.
  unfold noise2D_num, noise2D_num_value, corner, bind, read_perm, grad_num,
    bind, read_gradP, ret, throw, get_at, dot_num.
  rewrite !Z.add_0_r, !plus_num_0.
  repeat match goal with
  | |- context [get (gradP st) ?k] =>
      destruct (get (gradP st) k) as [[? ?]|]; simpl; try reflexivity
  end.
Qed.


Lemma octave_round_num (n : nat) (x y : number) (p l : Q) (t : number)
    (f a m : Q) (st : Field) :
  octave_loop_num (S n) x y p l (t, f, a, m) st =
  match noise2D_num_value st (num_mul x (Fin f)) (num_mul y (Fin f)) with
  | Ret s =>
      octave_loop_num n x y p l
        (num_add t (num_mul s (Fin a)), (f * l)%Q, (a * p)%Q, (m + a)%Q) st
  | Throw => (Throw, st)
  end.
Proof.
  cbn [octave_loop_num]. unfold bind at 1. rewrite noise2D_num_run.
  destruct (noise2D_num_value st _ _); reflexivity.
Qed.



Lemma octave_loop_num_exec (n : nat) (x y : number) (p l : Q) (st : Field) :
  forall vars, exec (octave_loop_num n x y p l vars) st = st.
Proof.
  induction n as [|n IH]; intros [[[t f] a] m]; [reflexivity|].
  unfold exec in *. rewrite octave_round_num.
  destruct (noise2D_num_value st _ _); [apply IH | reflexivity].
Qed.

Lemma perlin2D_num_run (x y : number) (o : Z) (p l : Q) (st : Field) :
  perlin2D_num x y o p l st = (result (perlin2D_num x y o p l) st, st).
Proof.
  pose proof (octave_loop_num_exec (Z.to_nat o) x y p l st
                (Fin 0, 1%Q, 1%Q, 0%Q)) as H.
  unfold result, exec, perlin2D_num, bind in *.
  destruct (octave_loop_num _ _ _ _ _ _ st) as [[[[[t f] a] m]|] st'];
    simpl in *; subst st'; reflexivity.
Qed.



Section NumberSampling.

Variable st : Field.
Hypothesis Hok : tables_ok st.







End NumberSampling.

(** ** The grid of the visualizer *)

Section GeneratedGrid.

Import PerlinVisualizer.

Lemma cell_sample_run (v : t) (x y : Z) (st : Field) :
  cell_sample v x y st = (result (cell_sample v x y) st, st).
Proof. unfold cell_sample. apply perlin2D_num_run. Qed.







End GeneratedGrid.
Section IsometricView.

Import PerlinVisualizer.

Lemma Qfloor_scaled (x g : Z) (p : positive) :
  Qfloor (inject_Z x * (inject_Z g / inject_Z (Z.pos p))) = (x * g) / Z.pos p.
Proof.
  unfold Qfloor, Qdiv, Qmult, Qinv, inject_Z. simpl.
  rewrite Z.mul_1_r. reflexivity.
Qed.

Lemma sample_value (v : t) (x : Z) :
  1 <= gridSize v ->
  sample v x = Some ((x * gridSize v) / isoGridSize v).
Proof.
  intros Hg. unfold sample, scaleFactor.
  assert (Hi : 1 <= isoGridSize v) by (unfold isoGridSize; lia).
  destruct (isoGridSize v) as [|p|p] eqn:Ei; try lia.
  rewrite js_div_nonzero.
  - rewrite Qfloor_scaled. reflexivity.
  - unfold Qeq, inject_Z. simpl. lia.
Qed.

(** X19: every tile of the isometric view samples a cell inside the
    grid, so the guard before the read never skips a tile; the sampled
    index is at least the tile index, equal to it for a grid of up to
    20 cells a side, and different tiles of a row sample different
    columns. *)
Theorem isometric_samples_inside (v : t) (x : Z) :
  0 <= x < isoGridSize v ->
  exists i,
    sample v x = Some i
    /\ x <= i < gridSize v
    /\ (gridSize v <= 20 -> i = x)
    /\ (forall y, 0 <= y < isoGridSize v -> skipped v x y = false)
    /\ (forall x' i', x < x' -> sample v x' = Some i' -> i < i').
Proof.
  intros Hx.
  assert (Hg : 1 <= gridSize v) by (unfold isoGridSize in Hx; lia).
  assert (Hb : forall z, 0 <= z < isoGridSize v ->
            z <= (z * gridSize v) / isoGridSize v < gridSize v).
  { intros z Hz. unfold isoGridSize in *.
    split.
    - apply Z.div_le_lower_bound; nia.
    - apply Z.div_lt_upper_bound; nia. }
  exists ((x * gridSize v) / isoGridSize v).
  split; [apply sample_value; exact Hg|].
  split; [apply Hb; exact Hx|]. split; [|split].
  - intros H20. unfold isoGridSize. rewrite Z.min_r by lia.
    apply Z.div_mul. lia.
  - intros y Hy. unfold skipped. rewrite !sample_value by exact Hg.
    pose proof (Hb x Hx). pose proof (Hb y Hy).
    destruct (Z.leb_spec (gridSize v) ((x * gridSize v) / isoGridSize v));
      [lia|].
    destruct (Z.leb_spec (gridSize v) ((y * gridSize v) / isoGridSize v));
      [lia | reflexivity].
  - intros x' i' Hlt E. rewrite sample_value in E by exact Hg.
    injection E as <-.
    unfold isoGridSize in *.
    assert (Hstep : (x * gridSize v) / Z.min 20 (gridSize v) + 1
                    <= (x' * gridSize v) / Z.min 20 (gridSize v)).
    { rewrite <- (Z.div_add _ 1) by lia.
      apply Z.div_le_mono; nia. }
    lia.
Qed.


End IsometricView.

Section GridValues.

Import PerlinVisualizer.

Variable st : Field.
Hypothesis Hok : tables_ok st.







End GridValues.

Section Generate.

Import PerlinVisualizer.

Variable newSeed : bool.
Variable v : t.

Let v0 : t :=
  if newSeed
  then with_perlin (exec (seed (currentSeed v)) (perlin v)) v
  else v.

Hypothesis Hfield :
  if newSeed
  then (0 <= currentSeed v <= inject_Z exact_seed_limit)%Q
  else tables_ok (perlin v).
Hypothesis Hsize : 0 <= gridSize v <= 4294967295.








End Generate.
Section GenerateAgain.

Import PerlinVisualizer.

Lemma fill_row_frame (v : t) (y : Z) (n : nat) :
  forall (x : Z) (g : gmap Z (gmap Z number)),
  exists g', snd (fill_row n x y (with_noiseGrid g v)) = with_noiseGrid g' v.
Proof.
  induction n as [|n IH]; intros x g.
  - exists g. reflexivity.
  - cbn [fill_row]. rewrite cell_sample_run.
    destruct (result _ _) as [value|].
    + apply (IH (x + 1)
               (<[y := <[x := value]> (default ∅ (g !! y))]> g)).
    + exists g. reflexivity.
Qed.

Lemma fill_rows_frame (v : t) (n : nat) :
  forall (y : Z) (g : gmap Z (gmap Z number)),
  exists g', snd (fill_rows n y (with_noiseGrid g v)) = with_noiseGrid g' v.
Proof.
  induction n as [|n IH]; intros y g.
  - exists g. reflexivity.
  - cbn [fill_rows].
    destruct (fill_row_frame v y (Z.to_nat (gridSize v)) 0 (<[y := ∅]> g))
      as (g1 & E1).
    change (fill_row _ 0 y _)
      with (fill_row (Z.to_nat (gridSize v)) 0 y
              (with_noiseGrid (<[y := ∅]> g) v)).
    destruct (fill_row _ 0 y _) as [[[]|] v1]; simpl in E1; subst v1.
    + apply IH.
    + exists g1. reflexivity.
Qed.

(** X24: calling [generate()] again, with no slider moved, reproduces
    what the call before it left: the same outcome, the same grid, the
    same tables. *)
Theorem generate_again (newSeed : bool) (v : t) :
  generate false (snd (generate newSeed v)) = generate newSeed v.
Proof.
  unfold generate at 2 3.
  set (v0 := if newSeed
             then with_perlin (exec (seed (currentSeed v)) (perlin v)) v
             else v).
  destruct ((gridSize v0 <? 0) || (4294967295 <? gridSize v0)) eqn:Hr.
  - simpl. unfold generate. rewrite Hr. reflexivity.
  - destruct (fill_rows_frame v0 (Z.to_nat (gridSize v0)) 0 ∅) as (g' & E).
    remember (fill_rows (Z.to_nat (gridSize v0)) 0 (with_noiseGrid ∅ v0))
      as r eqn:Er.
    destruct r as [o v1]. simpl in E. subst v1. simpl.
    unfold generate.
    change (gridSize (with_noiseGrid g' v0)) with (gridSize v0).
    rewrite Hr.
    change (with_noiseGrid ∅ (with_noiseGrid g' v0))
      with (with_noiseGrid ∅ v0).
    symmetry. exact Er.
Qed.

(** X25: what [generate(true)] leaves depends on the seed and the sliders
    only: two visualizers whose noise objects were constructed with
    different draws of [Math.random], and whose grids differ, hold the
    same tables and the same grid after it (the grid size being one
    that [new Array] accepts). *)
Theorem generate_reproducible
    (rnd1 rnd2 : Q) (g1 g2 : gmap Z (gmap Z number))
    (size zoom oct : Z) (pers lac s : Q) :
  0 <= size <= 4294967295 ->
  generate true (mk (constructor rnd1) g1 size zoom oct pers lac s) =
  generate true (mk (constructor rnd2) g2 size zoom oct pers lac s).
Proof.
  intros Hsize.
  unfold generate, with_perlin, with_noiseGrid, constructor. simpl.
  destruct (Z.ltb_spec size 0) as [|_]; [lia|].
  destruct (Z.ltb_spec 4294967295 size) as [|_]; [lia|]. simpl.
  rewrite !seed_after_seed. reflexivity.
Qed.

End GenerateAgain.
Lemma isometric_samples_inside_witness :
  let v :=
    PerlinVisualizer.mk (mkField ∅ ∅) ∅ 50 50 2 (1 # 2) 2 12345 in
  0 <= 7 < PerlinVisualizer.isoGridSize v
  /\ exists i,
       PerlinVisualizer.sample v 7 = Some i
       /\ 7 <= i < PerlinVisualizer.gridSize v
       /\ (PerlinVisualizer.gridSize v <= 20 -> i = 7)
       /\ (forall y, 0 <= y < PerlinVisualizer.isoGridSize v ->
             PerlinVisualizer.skipped v 7 y = false)
       /\ (forall x' i', 7 < x' ->
             PerlinVisualizer.sample v x' = Some i' -> i < i').
Proof.
  intros v.
  assert (H : 0 <= 7 < PerlinVisualizer.isoGridSize v)
    by (vm_compute; split; [discriminate | reflexivity]).
  split; [exact H|].
  exact (isometric_samples_inside v 7 H).
Defined.





Lemma generate_reproducible_witness :
  0 <= 3 <= 4294967295
  /\ PerlinVisualizer.generate true
       (PerlinVisualizer.mk (constructor (1 # 3)) ∅ 3 50 2 (1 # 2) 2 12345) =
     PerlinVisualizer.generate true
       (PerlinVisualizer.mk (constructor (2 # 3)) (<[0 := ∅]> ∅) 3 50 2
          (1 # 2) 2 12345).
Proof.
  assert (Hg : 0 <= 3 <= 4294967295) by lia.
  split; [exact Hg|].
  exact (generate_reproducible (1 # 3) (2 # 3) ∅ (<[0 := ∅]> ∅) 3 50 2
           (1 # 2) 2 12345 Hg).
Defined.

(** ** Colour texts *)

Section ColourTexts.

Import PerlinVisualizer.

Lemma append_nil (b : string) : EmptyString +:+ b = b.
Proof. reflexivity. Qed.

Lemma append_cons (x : ascii) (a b : string) :
  String x a +:+ b = String x (a +:+ b).
Proof. reflexivity. Qed.

Ltac unfold_append := rewrite ?append_cons, ?append_nil in *.

Lemma append_assoc (a b c : string) : (a +:+ b) +:+ c = a +:+ (b +:+ c).
Proof.
  induction a as [|x a IH]; unfold_append; [reflexivity | f_equal; exact IH].
Qed.

Lemma span_stop (p : ascii -> bool) (a rest : string) :
  span p a = (a, EmptyString) ->
  fst (span p rest) = EmptyString ->
  span p (a +:+ rest) = (a, rest).
Proof.
  intros Ha Hr. induction a as [|x a IH]; unfold_append; simpl in *.
  - destruct rest as [|c r]; [reflexivity|]. simpl in *.
    destruct (p c); [discriminate | reflexivity].
  - destruct (p x); [|discriminate].
    injection Ha as Ha1 Ha2.
    rewrite IH; [reflexivity|].
    destruct (span p a). simpl in *. congruence.
Qed.

Lemma span_all_app (p : ascii -> bool) (a b : string) :
  span p a = (a, EmptyString) -> span p b = (b, EmptyString) ->
  span p (a +:+ b) = (a +:+ b, EmptyString).
Proof.
  intros Ha Hb. induction a as [|x a IH]; unfold_append; simpl in *;
    [exact Hb|].
  destruct (p x); [|discriminate].
  injection Ha as Ha1 Ha2.
  rewrite IH; [reflexivity|].
  destruct (span p a). simpl in *. congruence.
Qed.

Lemma digits_value_app (radix acc : Z) (a b : string) :
  digits_value radix acc (a +:+ b) =
  digits_value radix (digits_value radix acc a) b.
Proof.
  revert acc. induction a as [|x a IH]; intros acc; unfold_append; simpl;
    [reflexivity | apply IH].
Qed.

Lemma pretty_N_go_app (x : N) (s : string) :
  pretty_N_go x s = pretty_N_go x EmptyString +:+ s.
Proof.
  revert s. induction (N.lt_wf_0 x) as [x _ IH]; intros s.
  destruct (N.eq_dec x 0%N) as [->|Hx].
  - rewrite !pretty_N_go_0. reflexivity.
  - rewrite (pretty_N_go_step x s), (pretty_N_go_step x EmptyString) by lia.
    rewrite (IH (x `div` 10)%N) by (apply N.div_lt; lia).
    rewrite (IH (x `div` 10)%N ltac:(apply N.div_lt; lia)
               (String _ EmptyString)).
    rewrite append_assoc. reflexivity.
Qed.

Lemma pretty_N_char_digit (d : N) :
  (d < 10)%N ->
  is_digit (pretty_N_char d) = true
  /\ hex_value (pretty_N_char d) = Some (Z.of_N d).
Proof.
  intros Hd.
  assert (H : (d = 0 \/ d = 1 \/ d = 2 \/ d = 3 \/ d = 4 \/ d = 5
               \/ d = 6 \/ d = 7 \/ d = 8 \/ d = 9)%N) by lia.
  repeat destruct H as [H|H]; subst d; split; reflexivity.
Qed.

(** The digits of a number: a run of digits whose value is the number. *)
Lemma pretty_N_go_digits (x : N) :
  span is_digit (pretty_N_go x EmptyString) =
    (pretty_N_go x EmptyString, EmptyString)
  /\ digits_value 10 0 (pretty_N_go x EmptyString) = Z.of_N x.
Proof.
  induction (N.lt_wf_0 x) as [x _ IH].
  destruct (N.eq_dec x 0%N) as [->|Hx].
  - rewrite pretty_N_go_0. split; reflexivity.
  - rewrite pretty_N_go_step, pretty_N_go_app by lia.
    destruct (IH (x `div` 10)%N) as [Hs Hv]; [apply N.div_lt; lia|].
    destruct (pretty_N_char_digit (x `mod` 10)%N) as [Hd Hh];
      [apply N.mod_lt; lia|].
    split.
    + apply span_all_app; [exact Hs|]. simpl. rewrite Hd. reflexivity.
    + rewrite digits_value_app, Hv. simpl. rewrite Hh. simpl.
      rewrite (N.div_mod x 10) at 3 by lia. lia.
Qed.

Lemma pretty_N_go_nonempty (x : N) :
  (0 < x)%N -> pretty_N_go x EmptyString <> EmptyString.
Proof.
  intros Hx. rewrite pretty_N_go_step, pretty_N_go_app by exact Hx.
  destruct (pretty_N_go _ EmptyString); discriminate.
Qed.

Lemma pretty_digits (z : Z) :
  0 <= z ->
  pretty z <> EmptyString
  /\ span is_digit (pretty z) = (pretty z, EmptyString)
  /\ digits_value 10 0 (pretty z) = z.
Proof.
  intros Hz. destruct z as [|p|p]; [| |lia].
  - repeat split. discriminate.
  - unfold pretty, pretty_Z, pretty, pretty_positive, pretty, pretty_N.
    destruct (decide (N.pos p = 0%N)); [discriminate|].
    destruct (pretty_N_go_digits (N.pos p)) as [Hs Hv].
    split; [apply pretty_N_go_nonempty; lia|]. split; [exact Hs|].
    rewrite Hv. reflexivity.
Qed.

End ColourTexts.

Section ColourParsing.

Import PerlinVisualizer.

Lemma span_head (p : ascii -> bool) (c : ascii) (s : string) :
  span p (String c s) = (String c s, EmptyString) ->
  p c = true /\ span p s = (s, EmptyString).
Proof.
  simpl. destruct (p c); [|discriminate]. intros [= E1 E2].
  split; [reflexivity|]. destruct (span p s). simpl in *. congruence.
Qed.

(** [parseInt] of a run of digits is the value of the run. *)
Lemma parseInt_digits (d : string) :
  d <> EmptyString -> span is_digit d = (d, EmptyString) ->
  parseInt d false = Fin (inject_Z (digits_value 10 0 d)).
Proof.
  intros Hne Hd. destruct d as [|c d]; [congruence|].
  destruct (span_head _ _ _ Hd) as [Hc Hd'].
  assert (Hrun : fst (span is_digit (String c d)) = String c d)
    by (rewrite Hd; reflexivity).
  destruct c as [[] [] [] [] [] [] [] []]; try discriminate Hc;
    try (unfold parseInt; simpl; rewrite Hd'; simpl;
         rewrite Z.mul_1_l; reflexivity).
  destruct d as [|c2 d]; [reflexivity|].
  destruct (span_head _ _ _ Hd') as [Hc2 Hd''].
  destruct c2 as [[] [] [] [] [] [] [] []]; try discriminate Hc2;
    unfold parseInt; simpl; rewrite Hd''; simpl;
    rewrite Z.mul_1_l; reflexivity.
Qed.

End ColourParsing.

Section ColourMatching.

Import PerlinVisualizer.

Lemma digit_no_space (c : ascii) : is_digit c = true -> is_space c = false.
Proof.
  destruct c as [[] [] [] [] [] [] [] []]; intros H; try discriminate H;
    reflexivity.
Qed.

Lemma span_space_digits (d rest : string) :
  d <> EmptyString -> span is_digit d = (d, EmptyString) ->
  span is_space (d +:+ rest) = (EmptyString, d +:+ rest).
Proof.
  intros Hne Hd. destruct d as [|c d]; [congruence|].
  destruct (span_head _ _ _ Hd) as [Hc _].
  rewrite append_cons. simpl. rewrite (digit_no_space c Hc). reflexivity.
Qed.

Lemma match_here_intro (s m1 m2 m3 r1 r2 r3 r4 r5 r6 : string) :
  after "rgb(" s = Some (m1 +:+ r1) ->
  span is_digit (m1 +:+ r1) = (m1, r1) -> m1 <> EmptyString ->
  after "," r1 = Some r2 ->
  span is_digit (snd (span is_space r2)) = (m2, r3) -> m2 <> EmptyString ->
  after "," r3 = Some r4 ->
  span is_digit (snd (span is_space r4)) = (m3, r5) -> m3 <> EmptyString ->
  after ")" r5 = Some r6 ->
  match_here s = Some (m1, m2, m3).
Proof.
  intros A1 S1 N1 A2 S2 N2 A3 S3 N3 A4. unfold match_here.
  rewrite A1, S1. destruct m1 as [|c1 m1]; [congruence|].
  rewrite A2, S2. destruct m2 as [|c2 m2]; [congruence|].
  rewrite A3, S3. destruct m3 as [|c3 m3]; [congruence|].
  rewrite A4. reflexivity.
Qed.

Lemma skip_space (d rest : string) :
  d <> EmptyString -> span is_digit d = (d, EmptyString) ->
  snd (span is_space (String " " (d +:+ rest))) = d +:+ rest.
Proof.
  intros Hne Hd.
  change (snd (span is_space (String " " (d +:+ rest))))
    with (snd (span is_space (d +:+ rest))).
  rewrite span_space_digits by assumption. reflexivity.
Qed.

Lemma match_here_rgb (d1 d2 d3 : string) :
  d1 <> EmptyString -> span is_digit d1 = (d1, EmptyString) ->
  d2 <> EmptyString -> span is_digit d2 = (d2, EmptyString) ->
  d3 <> EmptyString -> span is_digit d3 = (d3, EmptyString) ->
  match_here ("rgb(" +:+ d1 +:+ ", " +:+ d2 +:+ ", " +:+ d3 +:+ ")") =
  Some (d1, d2, d3).
Proof.
  intros N1 H1 N2 H2 N3 H3.
  apply match_here_intro with
    (r1 := ", " +:+ d2 +:+ ", " +:+ d3 +:+ ")")
    (r2 := " " +:+ d2 +:+ ", " +:+ d3 +:+ ")")
    (r3 := ", " +:+ d3 +:+ ")")
    (r4 := " " +:+ d3 +:+ ")")
    (r5 := ")") (r6 := EmptyString); try assumption; try reflexivity.
  - apply span_stop; [exact H1 | reflexivity].
  - rewrite ?append_cons, ?append_nil. rewrite skip_space by assumption.
    apply span_stop; [exact H2 | reflexivity].
  - rewrite ?append_cons, ?append_nil. rewrite skip_space by assumption.
    apply span_stop; [exact H3 | reflexivity].
Qed.

Lemma regex_match_head (s : string) (m : string * string * string) :
  match_here s = Some m -> regex_match s = Some m.
Proof. intros H. destruct s; cbn [regex_match]; rewrite H; reflexivity. Qed.

Lemma Qfloor_clamp (z : Z) :
  Qfloor (Qmax 0 (Qmin 255 (inject_Z z))) = Z.max 0 (Z.min 255 z).
Proof.
  destruct (Q.min_spec 255 (inject_Z z)) as [[H1 ->]|[H1 ->]];
    [change 255%Q with (inject_Z 255) in H1; rewrite <- Zlt_Qlt in H1
    |change 255%Q with (inject_Z 255) in H1; rewrite <- Zle_Qle in H1].
  - change 255%Q with (inject_Z 255).
    destruct (Q.max_spec 0 (inject_Z 255)) as [[H2 ->]|[H2 ->]].
    + rewrite Qfloor_Z. lia.
    + exfalso. vm_compute in H2. apply H2. reflexivity.
  - destruct (Q.max_spec 0 (inject_Z z)) as [[H2 ->]|[H2 ->]];
      [change 0%Q with (inject_Z 0) in H2; rewrite <- Zlt_Qlt in H2
      |change 0%Q with (inject_Z 0) in H2; rewrite <- Zle_Qle in H2].
    + rewrite Qfloor_Z. lia.
    + change 0%Q with (inject_Z 0). rewrite Qfloor_Z. lia.
Qed.

(** What [adjustRgbBrightness] prints for integer channels and an
    integer amount. *)
Lemma adjustRgbBrightness_integers (r g b p : Z) :
  adjustRgbBrightness (Fin (inject_Z r)) (Fin (inject_Z g))
    (Fin (inject_Z b)) (inject_Z p) =
  rgb_text (Z.max 0 (Z.min 255 (r + p))) (Z.max 0 (Z.min 255 (g + p)))
    (Z.max 0 (Z.min 255 (b + p))).
Proof.
  unfold adjustRgbBrightness, rgb_text, plus_finite, Math_min, Math_max,
    floor_text.
  rewrite <- !inject_Z_plus, !Qfloor_clamp. reflexivity.
Qed.

Lemma adjustBrightness_rgb_text (r g b : Z) (percent : Q) :
  0 <= r -> 0 <= g -> 0 <= b ->
  adjustBrightness (rgb_text r g b) percent =
  adjustRgbBrightness (Fin (inject_Z r)) (Fin (inject_Z g))
    (Fin (inject_Z b)) percent.
Proof.
  intros Hr Hg Hb.
  destruct (pretty_digits r Hr) as (N1 & S1 & V1).
  destruct (pretty_digits g Hg) as (N2 & S2 & V2).
  destruct (pretty_digits b Hb) as (N3 & S3 & V3).
  unfold adjustBrightness.
  change (String.prefix "#" (rgb_text r g b)) with false.
  change (String.prefix "rgb" (rgb_text r g b)) with true. cbv iota.
  unfold rgb_text.
  rewrite (regex_match_head _ _ (match_here_rgb _ _ _ N1 S1 N2 S2 N3 S3)).
  rewrite !parseInt_digits by assumption.
  rewrite V1, V2, V3. reflexivity.
Qed.

End ColourMatching.

Section ColourFaces.

Import PerlinVisualizer.

(** X26: on the one-line text [rgb(r, g, b)] of three naturals of at
    most 2^53, which [parseInt] reads exactly, [adjustBrightness] with
    an integer amount of at most 2^53 in absolute value returns the
    one-line text of the three channels plus the amount, each clamped
    to 0 .. 255: the text is parsed back to the numbers it was printed
    from. *)
Theorem adjustBrightness_reads_rgb (r g b p : Z) :
  0 <= r <= 2 ^ 53 -> 0 <= g <= 2 ^ 53 -> 0 <= b <= 2 ^ 53 ->
  - 2 ^ 53 <= p <= 2 ^ 53 ->
  adjustBrightness (rgb_text r g b) (inject_Z p) =
  rgb_text (Z.max 0 (Z.min 255 (r + p))) (Z.max 0 (Z.min 255 (g + p)))
    (Z.max 0 (Z.min 255 (b + p))).
Proof.
  intros [Hr _] [Hg _] [Hb _] _.
  rewrite adjustBrightness_rgb_text by assumption.
  apply adjustRgbBrightness_integers.
Qed.

(** X27: two adjustments in the same direction compose: for channels of
    0 .. 255, darkening by [p] and then by [q] gives the text that
    darkening by [p + q] gives, and so does brightening. *)
Theorem adjustBrightness_composes (r g b p q : Z) :
  0 <= r <= 255 -> 0 <= g <= 255 -> 0 <= b <= 255 ->
  (p <= 0 /\ q <= 0) \/ (0 <= p /\ 0 <= q) ->
  adjustBrightness (adjustBrightness (rgb_text r g b) (inject_Z p))
    (inject_Z q) =
  adjustBrightness (rgb_text r g b) (inject_Z (p + q)).
Proof.
  intros Hr Hg Hb Hpq.
  rewrite !adjustBrightness_rgb_text by lia.
  rewrite !adjustRgbBrightness_integers.
  rewrite adjustBrightness_rgb_text by lia.
  rewrite adjustRgbBrightness_integers.
  f_equal; lia.
Qed.

Lemma digit_not_r (c : ascii) : is_digit c = true -> Ascii.eqb "r" c = false.
Proof.
  destruct c as [[] [] [] [] [] [] [] []]; intros H; try discriminate H;
    reflexivity.
Qed.

Lemma occurs_app (c : ascii) (a b : string) :
  occurs c (a +:+ b) = occurs c a || occurs c b.
Proof.
  induction a as [|x a IH]; rewrite ?append_cons, ?append_nil; simpl;
    [reflexivity|].
  rewrite IH, orb_assoc. reflexivity.
Qed.

Lemma digits_no_r (d : string) :
  span is_digit d = (d, EmptyString) -> occurs "r" d = false.
Proof.
  induction d as [|c d IH]; intros Hd; [reflexivity|].
  destruct (span_head _ _ _ Hd) as [Hc Hd'].
  cbn [occurs]. rewrite (digit_not_r c Hc), (IH Hd'). reflexivity.
Qed.

Lemma pretty_no_r (z : Z) : occurs "r" (pretty z) = false.
Proof.
  destruct z as [|p|p].
  - reflexivity.
  - apply digits_no_r. apply (pretty_digits (Z.pos p)). lia.
  - change (pretty (Z.neg p)) with ("-" +:+ pretty (Z.pos p)).
    rewrite occurs_app. simpl.
    apply digits_no_r. apply (pretty_digits (Z.pos p)). lia.
Qed.

Lemma match_here_needs_r (s : string) :
  occurs "r" s = false -> match_here s = None.
Proof.
  intros H. destruct s as [|c s]; [reflexivity|].
  cbn [occurs] in H. apply orb_false_iff in H as [H _].
  unfold match_here. cbn [after]. rewrite H. reflexivity.
Qed.

Lemma regex_match_needs_r (s : string) :
  occurs "r" s = false -> regex_match s = None.
Proof.
  induction s as [|c s IH]; intros H.
  - reflexivity.
  - cbn [regex_match]. rewrite (match_here_needs_r _ H).
    apply IH. cbn [occurs] in H. apply orb_false_iff in H as [_ H]. exact H.
Qed.

(** X28: [adjustBrightness] returns the colour text of a land tile as
    it is, for every amount: the template puts a line break after
    [rgb(], where the pattern wants a digit, so nothing is parsed; the
    left and the right face of a land tile that is not snow-capped get
    the colour of its top face. *)
Theorem adjustBrightness_leaves_landColor
    (normalizedValue persistence rnd1 rnd2 rnd3 percent : Q) :
  adjustBrightness (landColor normalizedValue persistence rnd1 rnd2 rnd3)
    percent =
  landColor normalizedValue persistence rnd1 rnd2 rnd3.
Proof.
  unfold adjustBrightness.
  change (String.prefix "#" (landColor normalizedValue persistence rnd1
                               rnd2 rnd3)) with false.
  change (String.prefix "rgb" (landColor normalizedValue persistence rnd1
                                 rnd2 rnd3)) with true.
  cbv iota.
  assert (E : regex_match
                (landColor normalizedValue persistence rnd1 rnd2 rnd3) =
              None); [|rewrite E; reflexivity].
  unfold landColor, floor_text, line_feed.
  rewrite ?append_cons, ?append_nil. cbn [regex_match].
  assert (E0 : forall t, match_here
                 (String "r" (String "g" (String "b" (String "("
                    (String "010" t))))) = None) by reflexivity.
  rewrite E0. apply regex_match_needs_r.
  repeat first
    [ rewrite occurs_app
    | rewrite pretty_no_r
    | progress cbn [occurs Ascii.eqb Bool.eqb orb] ].
  reflexivity.
Qed.

Lemma Qfloor_between (lo hi : Z) (q : Q) :
  (inject_Z lo <= q <= inject_Z hi)%Q -> lo <= Qfloor q <= hi.
Proof.
  intros [H1 H2]. split.
  - rewrite <- (Qfloor_Z lo). apply Qfloor_resp_le. exact H1.
  - rewrite <- (Qfloor_Z hi). apply Qfloor_resp_le. exact H2.
Qed.

(** X29: the colour of a water tile is parsed.  Whatever the two sums
    of the template, of [100, 200] and [150, 250] as they are for a
    [normalizedValue] of [0, 1], the left face gets the green and the
    blue of the top face lowered by 20, the right face by 40, no channel
    being clamped, and red stays 0. *)
Theorem adjustBrightness_darkens_waterColor (green blue : Q) :
  (100 <= green <= 200)%Q -> (150 <= blue <= 250)%Q ->
  waterColor green blue = rgb_text 0 (Qfloor green) (Qfloor blue)
  /\ adjustBrightness (waterColor green blue) (- (20)) =
     rgb_text 0 (Qfloor green - 20) (Qfloor blue - 20)
  /\ adjustBrightness (waterColor green blue) (- (40)) =
     rgb_text 0 (Qfloor green - 40) (Qfloor blue - 40).
Proof.
  intros Hgreen Hblue.
  assert (Hg : 100 <= Qfloor green <= 200)
    by (apply Qfloor_between; exact Hgreen).
  assert (Hb : 150 <= Qfloor blue <= 250)
    by (apply Qfloor_between; exact Hblue).
  assert (E : waterColor green blue =
              rgb_text 0 (Qfloor green) (Qfloor blue)) by reflexivity.
  split; [exact E|]. rewrite E.
  change (- (20))%Q with (inject_Z (-20)).
  change (- (40))%Q with (inject_Z (-40)).
  rewrite !adjustBrightness_rgb_text by lia.
  rewrite !adjustRgbBrightness_integers.
  split; f_equal; lia.
Qed.

End ColourFaces.

Lemma adjustBrightness_reads_rgb_witness :
  0 <= 0 <= 2 ^ 53 /\ 0 <= 150 <= 2 ^ 53 /\ 0 <= 200 <= 2 ^ 53
  /\ - 2 ^ 53 <= -20 <= 2 ^ 53
  /\ PerlinVisualizer.adjustBrightness (PerlinVisualizer.rgb_text 0 150 200)
       (inject_Z (-20)) =
     PerlinVisualizer.rgb_text (Z.max 0 (Z.min 255 (0 + -20)))
       (Z.max 0 (Z.min 255 (150 + -20))) (Z.max 0 (Z.min 255 (200 + -20))).
Proof.
  assert (H0 : 0 <= 0 <= 2 ^ 53) by lia.
  assert (H1 : 0 <= 150 <= 2 ^ 53) by lia.
  assert (H2 : 0 <= 200 <= 2 ^ 53) by lia.
  assert (H3 : - 2 ^ 53 <= -20 <= 2 ^ 53) by lia.
  split; [exact H0|]. split; [exact H1|]. split; [exact H2|].
  split; [exact H3|].
  exact (adjustBrightness_reads_rgb 0 150 200 (-20) H0 H1 H2 H3).
Defined.

Lemma adjustBrightness_composes_witness :
  0 <= 10 <= 255 /\ 0 <= 150 <= 255 /\ 0 <= 200 <= 255
  /\ ((-20 <= 0 /\ -20 <= 0) \/ (0 <= -20 /\ 0 <= -20))
  /\ PerlinVisualizer.adjustBrightness
       (PerlinVisualizer.adjustBrightness
          (PerlinVisualizer.rgb_text 10 150 200) (inject_Z (-20)))
       (inject_Z (-20)) =
     PerlinVisualizer.adjustBrightness
       (PerlinVisualizer.rgb_text 10 150 200) (inject_Z (-20 + -20)).
Proof.
  assert (H0 : 0 <= 10 <= 255) by lia.
  assert (H1 : 0 <= 150 <= 255) by lia.
  assert (H2 : 0 <= 200 <= 255) by lia.
  assert (H3 : (-20 <= 0 /\ -20 <= 0) \/ (0 <= -20 /\ 0 <= -20)) by lia.
  split; [exact H0|]. split; [exact H1|]. split; [exact H2|].
  split; [exact H3|].
  exact (adjustBrightness_composes 10 150 200 (-20) (-20) H0 H1 H2 H3).
Defined.

Lemma adjustBrightness_darkens_waterColor_witness :
  (100 <= 157 <= 200)%Q /\ (150 <= 207 <= 250)%Q
  /\ PerlinVisualizer.waterColor 157 207 =
     PerlinVisualizer.rgb_text 0 (Qfloor 157) (Qfloor 207)
  /\ PerlinVisualizer.adjustBrightness
       (PerlinVisualizer.waterColor 157 207) (- (20)) =
     PerlinVisualizer.rgb_text 0 (Qfloor 157 - 20) (Qfloor 207 - 20)
  /\ PerlinVisualizer.adjustBrightness
       (PerlinVisualizer.waterColor 157 207) (- (40)) =
     PerlinVisualizer.rgb_text 0 (Qfloor 157 - 40) (Qfloor 207 - 40).
Proof.
  assert (H1 : (100 <= 157 <= 200)%Q) by (split; vm_compute; discriminate).
  assert (H2 : (150 <= 207 <= 250)%Q) by (split; vm_compute; discriminate).
  split; [exact H1|]. split; [exact H2|].
  exact (adjustBrightness_darkens_waterColor 157 207 H1 H2).
Defined.
